(** * Brownian motion simulator: path generation, playback and axis range

    A shallow embedding of [brownian-motion-simulator.tsx] (the React component
    [BrownianMotionSimulator]) and the properties its specification states.
    The file holds two listings of the component; they differ in the initial
    drift and diffusion, in the initial value of [animationRef] (undefined
    or 0, both falsy) and in a canvas clear that [resetSimulation] gained.
    The path generator, the playback code and the range are the same.

    - JavaScript numbers are IEEE 754 binary64 values: they are modelled by
      Rocq's primitive floats, whose operations round to nearest, ties to
      even, as the ECMAScript operators [+], [*] and [/] do.  A decimal
      literal denotes the nearest double in both languages.
    - [Math.abs], [Math.min] and [Math.max] are exact in ECMA-262 and are
      written out; [Math.sqrt] is the correctly rounded square root that
      engines compute it with.  [Math.log] and [Math.cos] are implementation
      approximated and are taken from a host ([MathLib]), of which only the
      value ECMA-262 fixes for [Math.log(0)] is used.
    - [Math.random()] is the host's sequence of draws, read through a cursor
      that each call advances.
    - The loop counter is a natural number and the step count an integer
      (the field [steps] can hold a negative one); they are read as doubles
      where the code computes with them, exactly below 2^53.  The limits an
      engine puts on the length of an array and on the number of arguments
      of a call are not modelled.
    - The component's state, the ref [animationRef] and the browser's list of
      animation frame callbacks form the state of a transition system.  Its
      steps are the clicks on the two buttons, a change of a parameter
      field, an animation frame (the browser runs the callbacks of its
      list) and a render (React runs the cleanup and the body of the
      animation loop's effect).  A click is a discrete event: React renders
      and runs the effects before the handler returns to the browser.  The
      state updates of an animation frame callback are rendered later, and
      nothing orders that render before the next animation frame: frames
      and renders are separate steps, in any order.  The state of the
      system holds the values the queued updates give, which are the values
      of the next render.
    - The first commit, with both paths empty, draws nothing; the system
      starts after the initialising effect that follows it. *)

From Stdlib Require Import ZArith List Bool Lia PeanoNat Uint63 Floats.
Import ListNotations.

Set Warnings "-inexact-float".

(** ** JavaScript numbers *)

Module JS.

Local Open Scope float_scope.

(** An integer counter ([i], [steps]) read as a number; exact below 2^53. *)
Definition of_nat (n : nat) : float :=
  PrimFloat.of_uint63 (Uint63.of_Z (Z.of_nat n)).

Definition of_Z (z : Z) : float :=
  if (z <? 0)%Z then - PrimFloat.of_uint63 (Uint63.of_Z (- z))
  else PrimFloat.of_uint63 (Uint63.of_Z z).

Definition Math_PI : float := 3.141592653589793.
Definition Math_sqrt : float -> float := PrimFloat.sqrt.
Definition Math_abs : float -> float := PrimFloat.abs.

Definition is_pos_zero (x : float) : bool :=
  match classify x with PZero => true | _ => false end.

Definition is_neg_zero (x : float) : bool :=
  match classify x with NZero => true | _ => false end.

(** One iteration of [Math.min] (ECMA-262, 21.3.2.25): a NaN argument makes
    the result NaN, -0 is below +0, otherwise the smaller number is kept. *)
Definition min_step (lowest number : float) : float :=
  if is_nan number then nan
  else if is_neg_zero number && is_pos_zero lowest then neg_zero
  else if number <? lowest then number
  else lowest.

Definition Math_min (args : list float) : float :=
  fold_left min_step args infinity.

(** One iteration of [Math.max] (ECMA-262, 21.3.2.24). *)
Definition max_step (highest number : float) : float :=
  if is_nan number then nan
  else if is_pos_zero number && is_neg_zero highest then zero
  else if highest <? number then number
  else highest.

Definition Math_max (args : list float) : float :=
  fold_left max_step args neg_infinity.

(** [a.slice(0, k)] for an integer [k >= 0]. *)
Definition slice0 {A : Type} (a : list A) (k : nat) : list A := firstn k a.

End JS.

Import JS.

(** ** The host: [Math.log], [Math.cos] and [Math.random] *)

Record MathLib : Type := {
  Math_log : float -> float;
  Math_cos : float -> float;
  (** ECMA-262, 21.3.2.20: [Math.log(+0)] is -Infinity. *)
  Math_log_zero : Math_log 0%float = neg_infinity
}.

(** Code that calls [Math.random()]: it reads the host's draws at a cursor
    and moves the cursor. *)
Definition Rand (A : Type) : Type := nat -> A * nat.

Definition ret {A : Type} (a : A) : Rand A := fun k => (a, k).

Definition bind {A B : Type} (m : Rand A) (f : A -> Rand B) : Rand B :=
  fun k => let (a, k') := m k in f a k'.

Notation "x <- m ;; f" := (bind m (fun x => f))
  (at level 61, m at next level, right associativity).

(** ** The component *)

Record BrownianPoint : Type := { time : float; value : float }.

(** The four parameter fields.  [steps] is an integer: the field stores
    what [Number.parseInt] returns, which can be negative. *)
Record Params : Type := {
  drift : float;
  diffusion : float;
  steps : Z;
  intervalLength : float
}.

(** What an [animate] closure holds of the render that created it. *)
Record Closure : Type := {
  cl_currentStep : nat;
  cl_fullPath : list BrownianPoint
}.

Record State : Type := {
  params : Params;
  isAnimating : bool;
  currentStep : nat;
  path : list BrownianPoint;
  fullPath : list BrownianPoint;
  (** [animationRef.current]; 0 (or undefined) before the first request. *)
  animationRef : nat;
  (** The browser's list of animation frame callbacks, with their handles. *)
  callbacks : list (nat * Closure);
  (** The browser's animation frame callback identifier. *)
  lastHandle : nat;
  (** How many numbers [Math.random()] has returned. *)
  cursor : nat
}.

Definition set_isAnimating (b : bool) (s : State) : State :=
  {| params := params s; isAnimating := b; currentStep := currentStep s;
     path := path s; fullPath := fullPath s; animationRef := animationRef s;
     callbacks := callbacks s; lastHandle := lastHandle s; cursor := cursor s |}.

Definition set_currentStep (n : nat) (s : State) : State :=
  {| params := params s; isAnimating := isAnimating s; currentStep := n;
     path := path s; fullPath := fullPath s; animationRef := animationRef s;
     callbacks := callbacks s; lastHandle := lastHandle s; cursor := cursor s |}.

Definition set_path (p : list BrownianPoint) (s : State) : State :=
  {| params := params s; isAnimating := isAnimating s;
     currentStep := currentStep s; path := p; fullPath := fullPath s;
     animationRef := animationRef s; callbacks := callbacks s;
     lastHandle := lastHandle s; cursor := cursor s |}.

Definition set_fullPath (p : list BrownianPoint) (k : nat) (s : State) : State :=
  {| params := params s; isAnimating := isAnimating s;
     currentStep := currentStep s; path := path s; fullPath := p;
     animationRef := animationRef s; callbacks := callbacks s;
     lastHandle := lastHandle s; cursor := k |}.

Definition set_animationRef (h : nat) (s : State) : State :=
  {| params := params s; isAnimating := isAnimating s;
     currentStep := currentStep s; path := path s; fullPath := fullPath s;
     animationRef := h; callbacks := callbacks s; lastHandle := lastHandle s;
     cursor := cursor s |}.

Definition set_callbacks (cbs : list (nat * Closure)) (h : nat) (s : State) : State :=
  {| params := params s; isAnimating := isAnimating s;
     currentStep := currentStep s; path := path s; fullPath := fullPath s;
     animationRef := animationRef s; callbacks := cbs; lastHandle := h;
     cursor := cursor s |}.

Definition set_params (p : Params) (s : State) : State :=
  {| params := p; isAnimating := isAnimating s; currentStep := currentStep s;
     path := path s; fullPath := fullPath s; animationRef := animationRef s;
     callbacks := callbacks s; lastHandle := lastHandle s; cursor := cursor s |}.

(** [requestAnimationFrame(cb)]: the identifier is incremented and the
    callback is appended to the list under it. *)
Definition requestAnimationFrame (cb : Closure) (s : State) : nat * State :=
  let h := S (lastHandle s) in
  (h, set_callbacks (callbacks s ++ [(h, cb)]) h s).

(** [cancelAnimationFrame(h)]: the entries under [h] leave the list. *)
Definition cancelAnimationFrame (h : nat) (s : State) : State :=
  set_callbacks (filter (fun e => negb (fst e =? h)) (callbacks s))
                (lastHandle s) s.

(** [if (animationRef.current) cancelAnimationFrame(animationRef.current)] *)
Definition cancelCurrent (s : State) : State :=
  if animationRef s =? 0 then s else cancelAnimationFrame (animationRef s) s.

Section Simulator.

Variable M : MathLib.
(** The numbers [Math.random()] returns, in the order of the calls. *)
Variable Math_random_seq : nat -> float.

Local Open Scope float_scope.

Definition Math_random : Rand float := fun k => (Math_random_seq k, S k).

(** Box-Muller transform for normal random numbers. *)
Definition generateNormalRandom : Rand float :=
  u1 <- Math_random ;;
  u2 <- Math_random ;;
  ret (Math_sqrt (- 2 * Math_log M u1) * Math_cos M (2 * Math_PI * u2)).

(** The [for] loop of [generatePath], [n] iterations from counter [i] on. *)
Fixpoint generatePath_loop (drift diffusion dt : float) (n i : nat)
    (currentValue : float) (newPath : list BrownianPoint)
    : Rand (list BrownianPoint) :=
  match n with
  | O => ret newPath
  | S n' =>
      randomNormal <- generateNormalRandom ;;
      let dX := drift * dt + diffusion * Math_sqrt dt * randomNormal in
      let currentValue := currentValue + dX in
      generatePath_loop drift diffusion dt n' (S i) currentValue
        (newPath ++ [{| time := of_nat i * dt; value := currentValue |}])
  end.

(** [for (let i = 1; i <= steps; i++)] runs [steps] iterations, and none
    when [steps] is not positive: [Z.to_nat (steps p)] of them. *)
Definition generatePath (p : Params) : Rand (list BrownianPoint) :=
  let dt := intervalLength p / of_Z (steps p) in
  generatePath_loop (drift p) (diffusion p) dt (Z.to_nat (steps p)) 1 0
    [{| time := 0; value := 0 |}].

(** The effect of the animation loop: its cleanup, then its body.  The
    body requests a frame for a fresh [animate], which holds [currentStep]
    and [fullPath] of this render. *)
Definition animationEffect (s : State) : State :=
  if isAnimating s
     && (Z.of_nat (currentStep s) <? Z.of_nat (length (fullPath s)) - 1)%Z
  then
    let (h, s') :=
      requestAnimationFrame
        {| cl_currentStep := currentStep s; cl_fullPath := fullPath s |} s in
    set_animationRef h s'
  else s.

(** A render after [isAnimating], [currentStep] or [fullPath] changed:
    the cleanup of the effect, then its body. *)
Definition rerender (s : State) : State := animationEffect (cancelCurrent s).

(** One call of [animate].  The updater of [setCurrentStep] reads the
    state ([prev]); the test that follows reads the closure. *)
Definition animate (cl : Closure) (s : State) : State :=
  let next := (currentStep s + 1)%nat in
  let s1 := set_currentStep next
              (set_path (slice0 (cl_fullPath cl) (next + 1)) s) in
  if (Z.of_nat (cl_currentStep cl)
        <? Z.of_nat (length (cl_fullPath cl)) - 2)%Z
  then
    let (h, s2) := requestAnimationFrame cl s1 in set_animationRef h s2
  else set_isAnimating false s1.

(** An animation frame: the browser runs the callbacks of its list; those
    they request wait for the next frame.  No render is part of it: the
    request [animate] makes with its own closure stays in the list until a
    render cancels it, or the next frame runs it. *)
Definition runCallbacks (s : State) : State :=
  match callbacks s with
  | [] => s
  | cbs =>
      fold_left (fun st e => animate (snd e) st) cbs
        (set_callbacks [] (lastHandle s) s)
  end.

(** An animation frame that React's render follows before the next frame:
    the order of events the component is written for.  A frame with no
    callback changes nothing and causes no render. *)
Definition animationFrame (s : State) : State :=
  match callbacks s with
  | [] => s
  | cbs =>
      rerender
        (fold_left (fun st e => animate (snd e) st) cbs
           (set_callbacks [] (lastHandle s) s))
  end.

Definition toggleAnimation (s : State) : State :=
  rerender
    (if isAnimating s then cancelCurrent (set_isAnimating false s)
     else set_isAnimating true s).

Definition resetSimulation (s : State) : State :=
  let s1 := set_path [] (set_currentStep 0 (set_isAnimating false s)) in
  let s2 := cancelCurrent s1 in
  let (newFullPath, k) := generatePath (params s2) (cursor s2) in
  rerender (set_fullPath newFullPath k s2).

(** A parameter field changes, in two steps: React commits the render
    with the new parameter and the paths as they were ([set_params]), on
    which the drawing effect runs; [generatePath] is a new function, and
    the initialising effect then resets the simulation.  [changeParams] is
    the state after both. *)
Definition changeParams (p : Params) (s : State) : State :=
  resetSimulation (set_params p s).

(** The [useState] and [useRef] initial values (of the first listing). *)
Definition initialState : State :=
  {| params := {| drift := 0.1; diffusion := 0.3; steps := 1000;
                  intervalLength := 10 |};
     isAnimating := false; currentStep := 0; path := []; fullPath := [];
     animationRef := 0; callbacks := []; lastHandle := 0; cursor := 0 |}.

(** The first render: the initialising effect runs [resetSimulation]. *)
Definition mounted : State := resetSimulation initialState.

(** The steps of the system.  [step_reset] is a click on the reset button
    or the initialising effect after a parameter changed; [step_params] is
    the commit of a changed parameter field (the fields are disabled while
    [isAnimating]); [step_callbacks] is an animation frame and
    [step_render] a render, in any order. *)
Inductive step : State -> State -> Prop :=
| step_toggle s : step s (toggleAnimation s)
| step_reset s : step s (resetSimulation s)
| step_params s p :
    isAnimating s = false -> step s (set_params p s)
| step_callbacks s : step s (runCallbacks s)
| step_render s : step s (rerender s).

Inductive reachable : State -> Prop :=
| reachable_mounted : reachable mounted
| reachable_step s s' : reachable s -> step s s' -> reachable s'.

(** The states reached when a render follows every animation frame before
    the next one. *)
Inductive inStep : State -> Prop :=
| inStep_mounted : inStep mounted
| inStep_toggle s : inStep s -> inStep (toggleAnimation s)
| inStep_reset s : inStep s -> inStep (resetSimulation s)
| inStep_params s p :
    inStep s -> isAnimating s = false -> inStep (set_params p s)
| inStep_frame s : inStep s -> inStep (animationFrame s).

(** The states reached when, besides, the initialising effect has run after
    every change of a parameter field. *)
Inductive settled : State -> Prop :=
| settled_mounted : settled mounted
| settled_toggle s : settled s -> settled (toggleAnimation s)
| settled_reset s : settled s -> settled (resetSimulation s)
| settled_params s p :
    settled s -> isAnimating s = false -> settled (changeParams p s)
| settled_callbacks s : settled s -> settled (runCallbacks s)
| settled_render s : settled s -> settled (rerender s).

(** [n] animation frames in a row, a render after each. *)
Fixpoint frames (n : nat) (s : State) : State :=
  match n with
  | O => s
  | S n' => frames n' (animationFrame s)
  end.

(** [n] animation frames in a row, with no render between them. *)
Fixpoint unrenderedFrames (n : nat) (s : State) : State :=
  match n with
  | O => s
  | S n' => unrenderedFrames n' (runCallbacks s)
  end.

End Simulator.

(** What the page shows. *)
Definition revealedCount (s : State) : nat := currentStep s + 1.

Definition currentValue (s : State) : float :=
  if (0 <? length (path s))%nat
  then value (nth (length (path s) - 1) (path s) {| time := nan; value := nan |})
  else 0%float.


(** ** The value axis of the canvas *)

Module Renderer.

Local Open Scope float_scope.

Definition allValues (fullPath : list BrownianPoint) : list float :=
  map value fullPath.

Definition minValue (fullPath : list BrownianPoint) : float :=
  Math_min (allValues fullPath ++ [0]).

Definition maxValue (fullPath : list BrownianPoint) : float :=
  Math_max (allValues fullPath ++ [0]).

Definition maxAbsValue (fullPath : list BrownianPoint) : float :=
  Math_max [Math_abs (minValue fullPath); Math_abs (maxValue fullPath)].

Definition range (fullPath : list BrownianPoint) : float :=
  Math_max [maxAbsValue fullPath * 1.2; 0.5].

End Renderer.

(** ** A sample host

    A host on which the model runs: series approximations of the logarithm
    and the cosine, as ECMA-262 lets an implementation choose them, and a
    Weyl sequence of draws in [0, 1).  The theorems hold for every host;
    this one evaluates them on inputs. *)

Module SampleHost.

Local Open Scope float_scope.

Fixpoint atanh_horner (k : nat) (t2 acc : float) : float :=
  match k with
  | O => acc
  | S k' => atanh_horner k' t2 (1 / of_nat (2 * k' + 1) + t2 * acc)
  end.

Definition log (x : float) : float :=
  if is_nan x then nan
  else if x =? 0 then neg_infinity
  else if x <? 0 then nan
  else if x =? infinity then infinity
  else if x =? 1 then 0
  else
    let (m, e) := Z.frexp x in
    let t := (m - 1) / (m + 1) in
    of_Z e * 0.6931471805599453 + 2 * (t * atanh_horner 20 (t * t) 0).

Fixpoint cos_horner (k : nat) (r2 acc : float) : float :=
  match k with
  | O => acc
  | S k' => cos_horner k' r2 (1 - r2 / of_nat ((2 * k - 1) * (2 * k)) * acc)
  end.

Definition cos (x : float) : float :=
  if is_finite x then
    let a := abs x in
    let turns := (a / (2 * Math_PI) + 0x1p52) - 0x1p52 in
    let r := a - turns * (2 * Math_PI) in
    cos_horner 14 (r * r) 1
  else nan.

Definition math : MathLib :=
  {| Math_log := log; Math_cos := cos; Math_log_zero := eq_refl |}.

Definition draws (k : nat) : float :=
  of_Z ((Z.of_nat k * 2654435769 + 40503) mod 4294967296) / 4294967296.

(** Draws whose first is exactly 0, the lower end of [Math.random]'s range. *)
Definition zeroFirst (k : nat) : float :=
  match k with
  | O => 0
  | S _ => 0.5
  end.

Definition fiveSteps : Params :=
  {| drift := 0.1; diffusion := 0.3; steps := 5; intervalLength := 10 |}.

Definition noNoise : Params :=
  {| drift := 0; diffusion := 0; steps := 5; intervalLength := 10 |}.

Definition steady : Params :=
  {| drift := 3; diffusion := 0; steps := 1; intervalLength := 1 |}.

End SampleHost.

(** ** Notions the statements use *)

(** The class of a double: a zero or a finite non-zero number, as opposed to
    an infinity or NaN. *)
Definition SFfinite (f : spec_float) : bool :=
  match f with
  | S754_zero _ | S754_finite _ _ _ => true
  | _ => false
  end.

(** A zero of either sign. *)
Definition zeroish (x : float) : Prop := x = 0%float \/ x = (- 0)%float.

Definition origin : BrownianPoint := {| time := 0; value := 0 |}.

(** The [i]-th sample of a path ([a[i]]; out of range stands for
    [undefined], which no statement reads). *)
Definition sample (a : list BrownianPoint) (i : nat) : BrownianPoint :=
  nth i a {| time := nan; value := nan |}.

Section Draws.

Variable M : MathLib.
Variable Math_random_seq : nat -> float.

Local Open Scope float_scope.

(** The Box-Muller value of two uniform draws. *)
Definition boxMuller (u1 u2 : float) : float :=
  Math_sqrt (- 2 * Math_log M u1) * Math_cos M (2 * Math_PI * u2).

(** The standard-normal draws of [n] successive calls of the sampler. *)
Fixpoint normalDraws (n : nat) : Rand (list float) :=
  match n with
  | O => ret []
  | S n' =>
      z <- generateNormalRandom M Math_random_seq ;;
      zs <- normalDraws n' ;;
      ret (z :: zs)
  end.

(** The Euler-Maruyama increment of one step. *)
Definition increment (p : Params) (dt z : float) : float :=
  drift p * dt + diffusion p * Math_sqrt dt * z.

(** The samples the recurrence yields from counter [i] and value [v] on. *)
Fixpoint walk (p : Params) (dt : float) (zs : list float) (i : nat) (v : float)
    : list BrownianPoint :=
  match zs with
  | [] => []
  | z :: zs' =>
      let v' := v + increment p dt z in
      {| time := of_nat i * dt; value := v' |} :: walk p dt zs' (S i) v'
  end.

End Draws.

(** The range policy in the words of the specification: 1.2 times the
    larger of |min value| and |max value| over the full path, at least 0.5. *)
Definition range_spec (fullPath : list BrownianPoint) : float :=
  let values := map value fullPath in
  Math_max
    [(1.2 * Math_max [Math_abs (Math_min values); Math_abs (Math_max values)])%float;
     0.5%float].

(** The maximum absolute value of a path, as the range policy reads it. *)
Definition maxAbs_spec (fullPath : list BrownianPoint) : float :=
  let values := map value fullPath in
  Math_max [Math_abs (Math_min values); Math_abs (Math_max values)].

(** Strictly increasing times, decided. *)
Fixpoint increasing (ts : list float) : bool :=
  match ts with
  | [] => true
  | t :: rest =>
      match rest with
      | [] => true
      | t' :: _ => (t <? t')%float && increasing rest
      end
  end.

(** The animation is running and has not reached the last sample. *)
Definition pending (s : State) : bool :=
  isAnimating s && (currentStep s + 1 <? length (fullPath s))%nat.

(** What holds of the component when a render follows every frame. *)
Record consistent (s : State) : Prop := {
  step_in_range : currentStep s < length (fullPath s);
  path_prefix :
    path s = [] \/ path s = slice0 (fullPath s) (currentStep s + 1);
  frame_requested :
    pending s = true ->
    animationRef s <> 0%nat
    /\ callbacks s =
         [(animationRef s,
           {| cl_currentStep := currentStep s; cl_fullPath := fullPath s |})];
  no_frame_requested : pending s = false -> callbacks s = []
}.

(** The list holds at most the callback [animationRef] names. *)
Definition owned (s : State) : Prop :=
  callbacks s = []
  \/ (animationRef s <> 0%nat /\ exists cl, callbacks s = [(animationRef s, cl)]).

(** A revealed path has two samples or more. *)
Definition shown (s : State) : Prop := path s = [] \/ 1 <= currentStep s.

(** What holds of the component whatever the order of frames and renders:
    the callback pending, if any, holds the full path of the state and the
    step of an earlier render. *)
Record coherent (s : State) : Prop := {
  revealed_prefix :
    path s = [] \/ path s = slice0 (fullPath s) (currentStep s + 1);
  revealed_shown : shown s;
  full_from_origin : exists rest, fullPath s = origin :: rest;
  stepped_long : 1 <= currentStep s -> 2 <= length (fullPath s);
  stopped_idle : isAnimating s = false -> callbacks s = [];
  one_callback :
    callbacks s = []
    \/ (animationRef s <> 0%nat
        /\ exists cl,
             callbacks s = [(animationRef s, cl)]
             /\ cl_fullPath cl = fullPath s
             /\ cl_currentStep cl <= currentStep s
             /\ cl_currentStep cl + 1 < length (fullPath s))
}.

(** ** The parameter fields

    [onChange] of a field stores [Number.parseFloat(e.target.value) || d]
    (the step count: [Number.parseInt(...) || 1000]); storing the value the
    field holds leaves the state as it is.  React commits the render with
    the new value; the reset of the initialising effect is a step of its
    own ([step_reset]). *)

(** A number is truthy unless it is NaN, +0 or -0. *)
Definition truthy (x : float) : bool := negb (is_nan x || is_zero x).

(** [x || d] on numbers. *)
Definition orElse (x d : float) : float := if truthy x then x else d.

Definition with_drift (v : float) (p : Params) : Params :=
  {| drift := v; diffusion := diffusion p; steps := steps p;
     intervalLength := intervalLength p |}.

Definition with_diffusion (v : float) (p : Params) : Params :=
  {| drift := drift p; diffusion := v; steps := steps p;
     intervalLength := intervalLength p |}.

Definition with_steps (n : Z) (p : Params) : Params :=
  {| drift := drift p; diffusion := diffusion p; steps := n;
     intervalLength := intervalLength p |}.

Definition with_intervalLength (v : float) (p : Params) : Params :=
  {| drift := drift p; diffusion := diffusion p; steps := steps p;
     intervalLength := v |}.

(** [parsed] is what [Number.parseFloat(e.target.value)] returns. *)
Definition onDriftChange (parsed : float) (s : State) : State :=
  set_params (with_drift (orElse parsed 0) (params s)) s.

Definition onDiffusionChange (parsed : float) (s : State) : State :=
  set_params (with_diffusion (orElse parsed 0) (params s)) s.

Definition onIntervalChange (parsed : float) (s : State) : State :=
  set_params (with_intervalLength (orElse parsed 1) (params s)) s.

(** [parsed] is what [Number.parseInt(e.target.value)] returns: an integer,
    negative ones included, or NaN ([None]); 0 and NaN are falsy. *)
Definition onStepsChange (parsed : option Z) (s : State) : State :=
  let n :=
    match parsed with
    | Some z => if (z =? 0)%Z then 1000%Z else z
    | None => 1000%Z
    end in
  set_params (with_steps n (params s)) s.

Section Form.

Variable M : MathLib.
Variable Math_random_seq : nat -> float.

(** The states the page reaches: the fields are disabled while
    [isAnimating]. *)
Inductive onPage : State -> Prop :=
| onPage_mounted : onPage (mounted M Math_random_seq)
| onPage_toggle s : onPage s -> onPage (toggleAnimation s)
| onPage_reset s : onPage s -> onPage (resetSimulation M Math_random_seq s)
| onPage_callbacks s : onPage s -> onPage (runCallbacks s)
| onPage_render s : onPage s -> onPage (rerender s)
| onPage_drift s x :
    onPage s -> isAnimating s = false -> onPage (onDriftChange x s)
| onPage_diffusion s x :
    onPage s -> isAnimating s = false -> onPage (onDiffusionChange x s)
| onPage_interval s x :
    onPage s -> isAnimating s = false -> onPage (onIntervalChange x s)
| onPage_steps s n :
    onPage s -> isAnimating s = false -> onPage (onStepsChange n s).

(** The full path is one generated for the parameters of the state, from
    the draws read last. *)
Definition generated (s : State) : Prop :=
  exists c, fullPath s = fst (generatePath M Math_random_seq (params s) c)
            /\ cursor s = c + 2 * Z.to_nat (steps (params s)).

End Form.

(** The numbers the fields can hold: no NaN and no -0 as drift or
    diffusion, a truthy interval length. *)
Definition sane (p : Params) : Prop :=
  (is_nan (drift p) = false /\ is_neg_zero (drift p) = false)
  /\ (is_nan (diffusion p) = false /\ is_neg_zero (diffusion p) = false)
  /\ truthy (intervalLength p) = true.

Definition SFnan (f : spec_float) : bool :=
  match f with
  | S754_nan => true
  | _ => false
  end.

Definition SFzero (f : spec_float) : bool :=
  match f with
  | S754_zero _ => true
  | _ => false
  end.

(** A right shift lost a bit: the round bit or the sticky bit is set. *)
Definition inexact (mrs : shr_record) : bool := shr_r mrs || shr_s mrs.

(** ** Drawing the revealed path

    The part of the drawing effect that strokes the path and marks the
    current point; the canvas is 800 by 400.  The axes, the grid and the
    labels, which do not read the path, are left out. *)

Module Canvas.

Local Open Scope float_scope.

Definition canvas_width : float := 800.
Definition canvas_height : float := 400.
Definition padding : float := 40.
Definition width : float := canvas_width - 2 * padding.
Definition height : float := canvas_height - 2 * padding.

(** The highlighted line of value 0. *)
Definition zeroY : float := padding + height / 2.

Definition x (intervalLength : float) (point : BrownianPoint) : float :=
  padding + (time point / intervalLength) * width.

Definition y (range : float) (point : BrownianPoint) : float :=
  padding + height / 2 - (value point / range) * (height / 2).

(** What is stroked ([moveTo] the first point, [lineTo] the others) and
    where the current point is filled. *)
Record Drawing : Type := {
  polyline : list (float * float);
  marker : option (float * float)
}.

(** [None]: the effect returns before it clears the canvas. *)
Definition drawPath (s : State) : option Drawing :=
  if (length (path s) <? 2)%nat then None
  else
    let range := Renderer.range (fullPath s) in
    let L := intervalLength (params s) in
    if (1 <? length (path s))%nat then
      Some
        {| polyline := map (fun point => (x L point, y range point)) (path s);
           marker :=
             if (0 <? length (path s))%nat then
               let currentPoint := sample (path s) (length (path s) - 1) in
               Some (x L currentPoint, y range currentPoint)
             else None |}
    else Some {| polyline := []; marker := None |}.

End Canvas.

(** * Facts about doubles

    Read off the specification of the primitive operations
    ([FloatAxioms], [SpecFloat]). *)

Module Binary64.

Local Open Scope float_scope.

Ltac by_class x :=
  destruct (Prim2SF x) as [[|] | [|] | | [|] ? ?].

Lemma SFcompare_refl_finite s m e :
  SFcompare (S754_finite s m e) (S754_finite s m e) = Some Eq.
Proof.
  simpl. destruct s; rewrite Z.compare_refl;
    change (Pos.compare_cont Eq m m) with (Pos.compare m m);
    rewrite Pos.compare_refl; reflexivity.
Qed.

Lemma is_finite_SF x : is_finite x = SFfinite (Prim2SF x).
Proof.
  unfold is_finite, is_nan, is_infinity.
  rewrite !eqb_spec, abs_spec.
  change (Prim2SF infinity) with (S754_infinity false).
  destruct (Prim2SF x) as [s | s | | s m e]; try (destruct s; reflexivity).
  - reflexivity.
  - unfold SFeqb at 1. rewrite SFcompare_refl_finite. reflexivity.
Qed.

Lemma float_of_SF x f : Prim2SF x = f -> x = SF2Prim f.
Proof. intros <-. symmetry. apply SF2Prim_Prim2SF. Qed.

Lemma zeroish_mul_finite a x :
  zeroish a -> is_finite x = true -> zeroish (a * x).
Proof.
  intros Ha Hx. rewrite is_finite_SF in Hx.
  assert (E := mul_spec a x).
  destruct Ha as [-> | ->];
    [ change (Prim2SF 0) with (S754_zero false) in E
    | change (Prim2SF (-0)) with (S754_zero true) in E ];
    destruct (Prim2SF x) as [s | s | | s m e]; try discriminate Hx;
    apply float_of_SF in E; rewrite E; destruct s; cbn; unfold zeroish; auto.
Qed.

Lemma zeroish_mul_nonfinite a y :
  zeroish a -> is_finite y = false -> a * y = nan.
Proof.
  intros Ha Hy. rewrite is_finite_SF in Hy.
  assert (E := mul_spec a y).
  destruct Ha as [-> | ->];
    [ change (Prim2SF 0) with (S754_zero false) in E
    | change (Prim2SF (-0)) with (S754_zero true) in E ];
    destruct (Prim2SF y) as [s | s | | s m e]; try discriminate Hy;
    apply float_of_SF in E; exact E.
Qed.

Lemma zeroish_add a b : zeroish a -> zeroish b -> zeroish (a + b).
Proof. intros [-> | ->] [-> | ->]; cbn; unfold zeroish; auto. Qed.

Lemma zero_add_zeroish b : zeroish b -> 0 + b = 0.
Proof. intros [-> | ->]; reflexivity. Qed.

Lemma add_nan_l x : nan + x = nan.
Proof.
  apply Prim2SF_inj. rewrite add_spec.
  change (Prim2SF nan) with S754_nan. by_class x; reflexivity.
Qed.

Lemma nonfinite_mul_l x y : is_finite x = false -> is_finite (x * y) = false.
Proof.
  rewrite !is_finite_SF, mul_spec.
  by_class x; by_class y; cbn; congruence.
Qed.




Lemma sqrt_finite_arg x : is_finite (sqrt x) = true -> is_finite x = true.
Proof.
  rewrite !is_finite_SF, sqrt_spec.
  by_class x; cbn; congruence.
Qed.

Lemma mul_comm x y : x * y = y * x.
Proof.
  apply Prim2SF_inj. rewrite !mul_spec.
  destruct (Prim2SF x) as [sx | sx | | sx mx ex],
           (Prim2SF y) as [sy | sy | | sy my ey];
    cbn; rewrite ?(xorb_comm sx sy); try reflexivity.
  rewrite (Pos.mul_comm mx my), (Z.add_comm ex ey). reflexivity.
Qed.

(** The order of doubles. *)

Lemma SFltb_trans f g h :
  SFltb f g = true -> SFltb g h = true -> SFltb f h = true.
Proof.
  unfold SFltb.
  destruct f as [[|] | [|] | | [|] m1 e1], g as [[|] | [|] | | [|] m2 e2],
           h as [[|] | [|] | | [|] m3 e3]; cbn; try congruence;
  change (Pos.compare_cont Eq) with Pos.compare;
  destruct (Z.compare_spec e1 e2), (Z.compare_spec e2 e3),
           (Z.compare_spec e1 e3);
    try lia; try congruence; subst;
  destruct (Pos.compare_spec m1 m2), (Pos.compare_spec m2 m3),
           (Pos.compare_spec m1 m3);
    cbn; try lia; congruence.
Qed.

Lemma ltb_trans x y z :
  (x <? y) = true -> (y <? z) = true -> (x <? z) = true.
Proof. rewrite !ltb_spec. apply SFltb_trans. Qed.

Lemma ltb_neg_zero x : (x <? -0) = (x <? 0).
Proof.
  rewrite !ltb_spec.
  change (Prim2SF (-0)) with (S754_zero true).
  change (Prim2SF 0) with (S754_zero false).
  by_class x; reflexivity.
Qed.

Lemma is_neg_zero_eq x : is_neg_zero x = true -> x = -0.
Proof.
  unfold is_neg_zero. rewrite classify_spec. intros H.
  apply float_of_SF with (f := S754_zero true).
  unfold SF64classify, SFclassify in H.
  destruct (Prim2SF x) as [[|] | [|] | | [|] m e];
    try reflexivity; try discriminate H;
    destruct (Z.eqb _ _); discriminate H.
Qed.

(** [Math.min] and [Math.max] over arguments that begin with 0. *)

Lemma min_step_keeps_origin lowest number :
  (0 <? lowest) = false -> (0 <? min_step lowest number) = false.
Proof.
  intros H. unfold min_step.
  destruct (is_nan number); [reflexivity|].
  destruct (is_neg_zero number && is_pos_zero lowest); [reflexivity|].
  destruct (number <? lowest) eqn:E; [|exact H].
  destruct (0 <? number) eqn:E0; [|reflexivity].
  rewrite (ltb_trans _ _ _ E0 E) in H. discriminate.
Qed.

Lemma max_step_keeps_origin highest number :
  is_neg_zero highest = false /\ (highest <? 0) = false ->
  is_neg_zero (max_step highest number) = false
  /\ (max_step highest number <? 0) = false.
Proof.
  intros [Hz H]. unfold max_step.
  destruct (is_nan number); [split; reflexivity|].
  destruct (is_pos_zero number && is_neg_zero highest); [split; reflexivity|].
  destruct (highest <? number) eqn:E; [|split; assumption].
  split.
  - destruct (is_neg_zero number) eqn:N; [|reflexivity].
    apply is_neg_zero_eq in N. subst number.
    rewrite ltb_neg_zero in E. congruence.
  - destruct (number <? 0) eqn:E0; [|reflexivity].
    rewrite (ltb_trans _ _ _ E E0) in H. discriminate.
Qed.

Lemma Math_min_origin vals :
  Math_min ((0 :: vals) ++ [0]) = Math_min (0 :: vals).
Proof.
  unfold Math_min. rewrite fold_left_app.
  change (fold_left min_step (0 :: vals) infinity)
    with (fold_left min_step vals 0).
  assert (H : (0 <? fold_left min_step vals 0) = false).
  { assert (G : forall l a,
               (0 <? a) = false -> (0 <? fold_left min_step l a) = false).
    { induction l as [|n l IH]; intros a Ha; cbn [fold_left]; [exact Ha|].
      apply IH, min_step_keeps_origin, Ha. }
    apply G. reflexivity. }
  cbn [fold_left]. unfold min_step at 1.
  change (is_nan 0) with false. change (is_neg_zero 0) with false.
  cbn [andb]. rewrite H. reflexivity.
Qed.

Lemma Math_max_origin vals :
  Math_max ((0 :: vals) ++ [0]) = Math_max (0 :: vals).
Proof.
  unfold Math_max. rewrite fold_left_app.
  change (fold_left max_step (0 :: vals) neg_infinity)
    with (fold_left max_step vals 0).
  assert (H : is_neg_zero (fold_left max_step vals 0) = false
              /\ (fold_left max_step vals 0 <? 0) = false).
  { assert (G : forall l a,
               is_neg_zero a = false /\ (a <? 0) = false ->
               is_neg_zero (fold_left max_step l a) = false
               /\ (fold_left max_step l a <? 0) = false).
    { induction l as [|n l IH]; intros a Ha; cbn [fold_left]; [exact Ha|].
      apply IH, max_step_keeps_origin, Ha. }
    apply G. split; reflexivity. }
  destruct H as [Hz H].
  cbn [fold_left]. unfold max_step at 1.
  change (is_nan 0) with false. rewrite Hz, andb_false_r, H. reflexivity.
Qed.

End Binary64.

(** * The path generator *)

Section GeneratorFacts.

Variable M : MathLib.
Variable u : nat -> float.

Local Open Scope float_scope.

Lemma generateNormalRandom_eq k :
  generateNormalRandom M u k = (boxMuller M (u k) (u (S k)), S (S k)).
Proof. reflexivity. Qed.

Lemma normalDraws_S n c :
  normalDraws M u (S n) c =
  (boxMuller M (u c) (u (S c)) :: fst (normalDraws M u n (S (S c))),
   snd (normalDraws M u n (S (S c)))).
Proof.
  cbn [normalDraws]. unfold bind at 1. rewrite generateNormalRandom_eq.
  unfold bind, ret. destruct (normalDraws M u n (S (S c))). reflexivity.
Qed.

Lemma normalDraws_cursor n : forall c, snd (normalDraws M u n c) = (c + 2 * n)%nat.
Proof.
  induction n as [|n IH]; intros c.
  - cbn. lia.
  - rewrite normalDraws_S. cbn [snd]. rewrite IH. lia.
Qed.

Lemma normalDraws_length n : forall c, length (fst (normalDraws M u n c)) = n.
Proof.
  induction n as [|n IH]; intros c; [reflexivity|].
  rewrite normalDraws_S. cbn [fst length]. now rewrite IH.
Qed.

Lemma normalDraws_nth n : forall c j d,
  (j < n)%nat ->
  nth j (fst (normalDraws M u n c)) d
  = boxMuller M (u (c + 2 * j)%nat) (u (S (c + 2 * j))).
Proof.
  induction n as [|n IH]; intros c j d Hj; [lia|].
  rewrite normalDraws_S. cbn [fst]. destruct j as [|j].
  - cbn [nth]. now rewrite Nat.add_0_r.
  - cbn [nth]. rewrite IH by lia.
    replace (S (S c) + 2 * j)%nat with (c + 2 * S j)%nat by lia. reflexivity.
Qed.

Lemma generatePath_loop_walk p dt n : forall i v acc c,
  generatePath_loop M u (drift p) (diffusion p) dt n i v acc c
  = (acc ++ walk p dt (fst (normalDraws M u n c)) i v,
     snd (normalDraws M u n c)).
Proof.
  induction n as [|n IH]; intros i v acc c.
  - cbn. now rewrite app_nil_r.
  - cbn [generatePath_loop]. unfold bind at 1.
    rewrite generateNormalRandom_eq, IH, normalDraws_S.
    cbn [fst snd walk]. unfold increment. now rewrite <- app_assoc.
Qed.

Lemma generatePath_walk p c :
  generatePath M u p c
  = (origin :: walk p (intervalLength p / of_Z (steps p))
                 (fst (normalDraws M u (Z.to_nat (steps p)) c)) 1 0,
     (c + 2 * Z.to_nat (steps p))%nat).
Proof.
  unfold generatePath. rewrite generatePath_loop_walk, normalDraws_cursor.
  reflexivity.
Qed.

Lemma walk_length p dt zs : forall i v, length (walk p dt zs i v) = length zs.
Proof.
  induction zs as [|z zs IH]; intros i v; [reflexivity|].
  cbn [walk length]. now rewrite IH.
Qed.

Lemma walk_time p dt zs : forall i v j,
  (j < length zs)%nat ->
  time (sample (walk p dt zs i v) j) = of_nat (i + j) * dt.
Proof.
  unfold sample.
  induction zs as [|z zs IH]; intros i v j Hj; cbn [length] in Hj; [lia|].
  cbn [walk]. destruct j as [|j]; cbn [nth time].
  - now rewrite Nat.add_0_r.
  - rewrite IH by lia. now rewrite Nat.add_succ_r.
Qed.

Lemma walk_value_next p dt zs : forall i v j d,
  (S j < length zs)%nat ->
  value (sample (walk p dt zs i v) (S j))
  = value (sample (walk p dt zs i v) j) + increment p dt (nth (S j) zs d).
Proof.
  unfold sample.
  induction zs as [|z zs IH]; intros i v j d Hj; cbn [length] in Hj; [lia|].
  cbn [walk]. destruct j as [|j].
  - destruct zs as [|z' zs]; cbn [length] in Hj; [lia|]. reflexivity.
  - cbn [nth]. apply IH. lia.
Qed.

Lemma generatePath_length p c :
  length (fst (generatePath M u p c)) = S (Z.to_nat (steps p)).
Proof.
  rewrite generatePath_walk. cbn [fst length].
  now rewrite walk_length, normalDraws_length.
Qed.

Lemma generatePath_origin p c :
  sample (fst (generatePath M u p c)) 0 = origin.
Proof. rewrite generatePath_walk. reflexivity. Qed.

Lemma generatePath_time p c i :
  (1 <= i <= Z.to_nat (steps p))%nat ->
  time (sample (fst (generatePath M u p c)) i)
  = of_nat i * (intervalLength p / of_Z (steps p)).
Proof.
  intros Hi. rewrite generatePath_walk. cbn [fst].
  destruct i as [|j]; [lia|].
  change (sample (origin :: ?l) (S j)) with (sample l j).
  rewrite walk_time by (rewrite normalDraws_length; lia).
  reflexivity.
Qed.

Lemma generatePath_value p c i :
  (1 <= i <= Z.to_nat (steps p))%nat ->
  value (sample (fst (generatePath M u p c)) i)
  = value (sample (fst (generatePath M u p c)) (i - 1))
    + increment p (intervalLength p / of_Z (steps p))
        (nth (i - 1) (fst (normalDraws M u (Z.to_nat (steps p)) c)) nan).
Proof.
  intros Hi. rewrite generatePath_walk. cbn [fst].
  destruct i as [|[|j]]; [lia| |].
  - cbn [Nat.sub]. change (sample (origin :: ?l) 1) with (sample l 0).
    change (value (sample (origin :: _) 0)) with 0.
    assert (L := normalDraws_length (Z.to_nat (steps p)) c).
    destruct (fst (normalDraws M u (Z.to_nat (steps p)) c)) as [|z zs];
      cbn [length] in L; [lia|]. reflexivity.
  - change (S (S j) - 1)%nat with (S j).
    change (sample (origin :: ?l) (S (S j))) with (sample l (S j)).
    change (sample (origin :: ?l) (S j)) with (sample l j).
    apply walk_value_next. rewrite normalDraws_length. lia.
Qed.


Lemma generatePath_cursor p c :
  snd (generatePath M u p c) = snd (normalDraws M u (Z.to_nat (steps p)) c).
Proof. rewrite generatePath_walk, normalDraws_cursor. reflexivity. Qed.

Lemma walk_times p dt zs : forall i v,
  map time (walk p dt zs i v)
  = map (fun j => of_nat j * dt) (seq i (length zs)).
Proof.
  induction zs as [|z zs IH]; intros i v; [reflexivity|].
  cbn [walk map length seq time]. now rewrite IH.
Qed.

Lemma generatePath_times p c :
  map time (fst (generatePath M u p c))
  = 0 :: map (fun j => of_nat j * (intervalLength p / of_Z (steps p)))
           (seq 1 (Z.to_nat (steps p))).
Proof.
  rewrite generatePath_walk. cbn [fst map time origin].
  now rewrite walk_times, normalDraws_length.
Qed.



Lemma boxMuller_zero u2 : is_finite (boxMuller M 0 u2) = false.
Proof.
  unfold boxMuller. rewrite Math_log_zero.
  apply Binary64.nonfinite_mul_l. reflexivity.
Qed.


(** Without drift and diffusion the recurrence stays at 0. *)
Lemma increment_zeroish p dt z :
  drift p = 0 -> diffusion p = 0 ->
  is_finite (Math_sqrt dt) = true -> is_finite z = true ->
  zeroish (increment p dt z).
Proof.
  intros Hd Hs Hdt Hz. unfold increment. rewrite Hd, Hs.
  apply Binary64.zeroish_add.
  - apply Binary64.zeroish_mul_finite; [now left|].
    now apply Binary64.sqrt_finite_arg.
  - apply Binary64.zeroish_mul_finite; [|exact Hz].
    apply Binary64.zeroish_mul_finite; [now left | exact Hdt].
Qed.

Lemma walk_zero p dt zs : forall i pt,
  drift p = 0 -> diffusion p = 0 ->
  is_finite (Math_sqrt dt) = true ->
  (forall z, In z zs -> is_finite z = true) ->
  In pt (walk p dt zs i 0) -> value pt = 0.
Proof.
  induction zs as [|z zs IH]; intros i pt Hd Hs Hdt Hzs Hin; [destruct Hin|].
  cbn [walk] in Hin.
  assert (E : 0 + increment p dt z = 0).
  { apply Binary64.zero_add_zeroish, increment_zeroish; auto.
    apply Hzs. now left. }
  rewrite E in Hin. destruct Hin as [<- | Hin]; [reflexivity|].
  eapply IH; eauto. intros z' Hz'. apply Hzs. now right.
Qed.

End GeneratorFacts.

(** ** The generator's claims *)

Section GeneratorClaims.

Variable M : MathLib.
Variable u : nat -> float.

Local Open Scope float_scope.


(** C2: the generated values satisfy the Euler-Maruyama recurrence over the
    standard-normal draws [Z_1 .. Z_n] the generation consumes: [value[0] = 0]
    and, for [i] from 1 to [steps],
    [value[i] = value[i-1] + (drift * dt + diffusion * sqrt(dt) * Z_i)] with
    [dt = intervalLength / steps]; [Z_i] is the Box-Muller value of the
    uniform draws [2i - 1] and [2i] of the run, and the generation consumes
    exactly these [steps] normal draws. *)
Theorem euler_maruyama_recurrence (p : Params) (c i : nat) :
  (1 <= i <= Z.to_nat (steps p))%nat ->
  let fp := fst (generatePath M u p c) in
  let dt := intervalLength p / of_Z (steps p) in
  let n := Z.to_nat (steps p) in
  let Z := fst (normalDraws M u n c) in
  value (sample fp 0) = 0
  /\ value (sample fp i)
     = value (sample fp (i - 1))
       + (drift p * dt + diffusion p * Math_sqrt dt * nth (i - 1) Z nan)
  /\ nth (i - 1) Z nan
     = Math_sqrt (- 2 * Math_log M (u (c + 2 * (i - 1))%nat))
       * Math_cos M (2 * Math_PI * u (c + 2 * (i - 1) + 1)%nat)
  /\ length Z = n
  /\ snd (generatePath M u p c) = snd (normalDraws M u n c).
Proof.
  intros Hi. cbv zeta. repeat split.
  - now rewrite generatePath_origin.
  - now apply generatePath_value.
  - rewrite normalDraws_nth by lia. unfold boxMuller.
    now rewrite Nat.add_1_r.
  - apply normalDraws_length.
  - apply generatePath_cursor.
Qed.


(** C7 (as amended): with [drift = 0] and [diffusion = 0], a time step
    [dt = intervalLength / steps] whose square root is finite, and finite
    standard-normal draws, every value of the generated path is exactly 0. *)
Theorem zero_noise_path (p : Params) (c : nat) :
  drift p = 0 -> diffusion p = 0 ->
  is_finite (Math_sqrt (intervalLength p / of_Z (steps p))) = true ->
  (forall z, In z (fst (normalDraws M u (Z.to_nat (steps p)) c)) ->
             is_finite z = true) ->
  forall pt, In pt (fst (generatePath M u p c)) -> value pt = 0.
Proof.
  intros Hd Hs Hdt Hz pt. rewrite generatePath_walk. cbn [fst].
  intros [<- | Hin]; [reflexivity|].
  eapply walk_zero; eauto.
Qed.

End GeneratorClaims.
Section GeneratorInstances.

Local Open Scope float_scope.

Lemma euler_maruyama_recurrence_witness :
  let p := SampleHost.fiveSteps in
  let fp := fst (generatePath SampleHost.math SampleHost.draws p 0%nat) in
  let Z := fst (normalDraws SampleHost.math SampleHost.draws 5 0%nat) in
  value (sample fp 3)
  = value (sample fp 2) + (0.1 * (10 / of_Z 5)
                           + 0.3 * Math_sqrt (10 / of_Z 5) * nth 2 Z nan).
Proof.
  refine (proj1 (proj2 (euler_maruyama_recurrence SampleHost.math
                          SampleHost.draws SampleHost.fiveSteps 0%nat 3%nat _))).
  cbn. lia.
Defined.



(** C7, as stated, fails: with [drift = 0], [diffusion = 0], two steps over
    an interval of 10 and a first draw of 0, the values after the origin are
    NaN, on every host. *)
Lemma zero_noise_nan :
  SampleHost.zeroFirst 0%nat = 0
  /\ forall M : MathLib,
       map value
         (fst (generatePath M SampleHost.zeroFirst
                 {| drift := 0; diffusion := 0; steps := 2;
                    intervalLength := 10 |} 0%nat))
       = [0; nan; nan].
Proof.
  split; [reflexivity|]. intros M.
  rewrite generatePath_walk. cbn [fst steps intervalLength].
  change (Z.to_nat 2) with 2%nat.
  rewrite !normalDraws_S. cbn [fst normalDraws ret walk map value origin].
  unfold increment. cbn [drift diffusion].
  change (10 / of_Z 2) with 5. change (0 * 5) with 0.
  change (0 * Math_sqrt 5) with 0.
  rewrite (Binary64.zeroish_mul_nonfinite 0 _ (or_introl eq_refl)
             (boxMuller_zero M _)).
  change (0 + (0 + nan)) with nan.
  now rewrite Binary64.add_nan_l.
Qed.

Lemma zero_noise_path_witness :
  Forall (fun pt => value pt = 0)
    (fst (generatePath SampleHost.math SampleHost.draws SampleHost.noNoise 0%nat)).
Proof.
  apply Forall_forall.
  apply (zero_noise_path SampleHost.math SampleHost.draws SampleHost.noNoise 0%nat).
  - reflexivity.
  - reflexivity.
  - vm_compute. reflexivity.
  - apply (proj1 (forallb_forall is_finite _)). vm_compute. reflexivity.
Defined.

End GeneratorInstances.
(** * The playback loop *)

Ltac split_and :=
  repeat match goal with |- _ /\ _ => split end; try reflexivity.

Section PlaybackFacts.

(** ** The effect and its cleanup *)

Lemma consistent_owned s : consistent s -> owned s.
Proof.
  intros C. destruct (pending s) eqn:P.
  - right. destruct (frame_requested s C P) as [H0 H]. split; eauto.
  - left. now apply no_frame_requested.
Qed.

Lemma coherent_owned s : coherent s -> owned s.
Proof.
  intros C. destruct (one_callback s C) as [E | (H0 & cl & E & _)].
  - now left.
  - right. split; eauto.
Qed.

Lemma cancelCurrent_callbacks s : owned s -> callbacks (cancelCurrent s) = [].
Proof.
  intros [H | (H0 & cl & H)]; unfold cancelCurrent.
  - destruct (animationRef s =? 0); [exact H|].
    unfold cancelAnimationFrame. cbn. now rewrite H.
  - apply Nat.eqb_neq in H0. rewrite H0.
    unfold cancelAnimationFrame. cbn. rewrite H. cbn.
    now rewrite Nat.eqb_refl.
Qed.

Lemma cancelCurrent_frame s :
  params (cancelCurrent s) = params s
  /\ isAnimating (cancelCurrent s) = isAnimating s
  /\ currentStep (cancelCurrent s) = currentStep s
  /\ path (cancelCurrent s) = path s
  /\ fullPath (cancelCurrent s) = fullPath s
  /\ animationRef (cancelCurrent s) = animationRef s
  /\ lastHandle (cancelCurrent s) = lastHandle s
  /\ cursor (cancelCurrent s) = cursor s.
Proof.
  unfold cancelCurrent. destruct (animationRef s =? 0); cbn; split_and.
Qed.

Lemma effect_test s :
  (isAnimating s
   && (Z.of_nat (currentStep s) <? Z.of_nat (length (fullPath s)) - 1)%Z)
  = pending s.
Proof.
  unfold pending. f_equal.
  destruct (Z.ltb_spec (Z.of_nat (currentStep s))
              (Z.of_nat (length (fullPath s)) - 1)),
           (Nat.ltb_spec (currentStep s + 1) (length (fullPath s)));
    try reflexivity; lia.
Qed.

Lemma rerender_frame s :
  params (rerender s) = params s
  /\ isAnimating (rerender s) = isAnimating s
  /\ currentStep (rerender s) = currentStep s
  /\ path (rerender s) = path s
  /\ fullPath (rerender s) = fullPath s
  /\ cursor (rerender s) = cursor s.
Proof.
  unfold rerender, animationEffect.
  destruct (cancelCurrent_frame s) as (Hp & Ha & Hc & Hq & Hf & _ & _ & Hk).
  destruct (_ && _); cbn; rewrite ?Hp, ?Ha, ?Hc, ?Hq, ?Hf, ?Hk; split_and.
Qed.

Lemma rerender_callbacks s :
  owned s ->
  if pending s then
    animationRef (rerender s) <> 0
    /\ callbacks (rerender s)
       = [(animationRef (rerender s),
           {| cl_currentStep := currentStep s; cl_fullPath := fullPath s |})]
  else callbacks (rerender s) = [].
Proof.
  intros O. unfold rerender, animationEffect.
  rewrite effect_test.
  assert (P : pending (cancelCurrent s) = pending s).
  { unfold pending.
    destruct (cancelCurrent_frame s) as (_ & -> & -> & _ & -> & _). reflexivity. }
  rewrite P. destruct (pending s).
  - cbn. rewrite (cancelCurrent_callbacks s O).
    destruct (cancelCurrent_frame s) as (_ & _ & -> & _ & -> & _).
    split; [discriminate | reflexivity].
  - now apply cancelCurrent_callbacks.
Qed.

Lemma rerender_consistent s :
  owned s ->
  currentStep s < length (fullPath s) ->
  path s = [] \/ path s = slice0 (fullPath s) (currentStep s + 1) ->
  consistent (rerender s).
Proof.
  intros O Hc Hp.
  destruct (rerender_frame s) as (_ & Ea & Ec & Eq & Ef & _).
  assert (P : pending (rerender s) = pending s).
  { unfold pending. now rewrite Ea, Ec, Ef. }
  assert (R := rerender_callbacks s O).
  constructor; rewrite ?Ec, ?Ef, ?Eq, ?P; auto.
  - intros HP. rewrite HP in R. exact R.
  - intros HP. rewrite HP in R. exact R.
Qed.

Lemma rerender_coherent s :
  owned s ->
  path s = [] \/ path s = slice0 (fullPath s) (currentStep s + 1) ->
  shown s ->
  (exists rest, fullPath s = origin :: rest) ->
  (1 <= currentStep s -> 2 <= length (fullPath s)) ->
  coherent (rerender s).
Proof.
  intros O Hp Hs Ho Hl.
  destruct (rerender_frame s) as (_ & Ea & Ec & Eq & Ef & _).
  assert (R := rerender_callbacks s O).
  constructor; unfold shown; rewrite ?Ec, ?Ef, ?Eq; auto.
  - intros A. rewrite Ea in A. unfold pending in R. rewrite A in R. exact R.
  - destruct (pending s) eqn:P; [right | now left].
    destruct R as [R0 R]. split; [exact R0|].
    eexists. split; [exact R|]. cbn [cl_fullPath cl_currentStep].
    unfold pending in P. apply andb_prop in P. destruct P as [_ P].
    apply Nat.ltb_lt in P. split; [reflexivity|]. split; [lia | exact P].
Qed.

(** ** An animation frame *)

Lemma runCallbacks_idle s : callbacks s = [] -> runCallbacks s = s.
Proof. intros H. unfold runCallbacks. now rewrite H. Qed.

Lemma animationFrame_runCallbacks s :
  animationFrame s
  = match callbacks s with
    | [] => s
    | _ => rerender (runCallbacks s)
    end.
Proof. unfold animationFrame, runCallbacks. now destruct (callbacks s). Qed.

Lemma animationFrame_no_callbacks s : callbacks s = [] -> animationFrame s = s.
Proof. intros H. unfold animationFrame. now rewrite H. Qed.

(** One callback runs: the step advances by one, the slice is taken from
    the full path of the closure, and the closure's step decides between a
    new request and the stop. *)
Lemma runCallbacks_advance s h cl :
  callbacks s = [(h, cl)] ->
  let s' := runCallbacks s in
  params s' = params s
  /\ currentStep s' = currentStep s + 1
  /\ path s' = slice0 (cl_fullPath cl) (currentStep s + 2)
  /\ fullPath s' = fullPath s
  /\ cursor s' = cursor s
  /\ (if cl_currentStep cl + 2 <? length (cl_fullPath cl)
      then isAnimating s' = isAnimating s
           /\ animationRef s' <> 0
           /\ callbacks s' = [(animationRef s', cl)]
      else isAnimating s' = false /\ callbacks s' = []).
Proof.
  intros H. cbv zeta. unfold runCallbacks. rewrite H. cbn [fold_left snd].
  unfold animate.
  destruct (Z.ltb_spec (Z.of_nat (cl_currentStep cl))
              (Z.of_nat (length (cl_fullPath cl)) - 2)) as [T | T].
  - replace (cl_currentStep cl + 2 <? length (cl_fullPath cl)) with true
      by (symmetry; apply Nat.ltb_lt; lia).
    cbn. split_and.
    + unfold slice0. f_equal. lia.
    + discriminate.
  - replace (cl_currentStep cl + 2 <? length (cl_fullPath cl)) with false
      by (symmetry; apply Nat.ltb_ge; lia).
    cbn. split_and. unfold slice0. f_equal. lia.
Qed.

Lemma runCallbacks_coherent s : coherent s -> coherent (runCallbacks s).
Proof.
  intros C. destruct (one_callback s C) as [E | (H0 & cl & E & Ef & Ec & El)].
  - now rewrite runCallbacks_idle.
  - destruct (runCallbacks_advance s _ cl E) as (_ & Hc & Hp & Hf & _ & Hb).
    rewrite Ef in Hp, Hb.
    assert (A : isAnimating s = true).
    { destruct (isAnimating s) eqn:A; [reflexivity|].
      rewrite (stopped_idle s C A) in E. discriminate. }
    constructor; unfold shown; rewrite ?Hc, ?Hf, ?Hp.
    + right. unfold slice0. f_equal. lia.
    + right. lia.
    + exact (full_from_origin s C).
    + intros _. lia.
    + intros A'. destruct (_ <? _); [|exact (proj2 Hb)].
      destruct Hb as (Hb & _). congruence.
    + destruct (_ <? _); [right | left; exact (proj2 Hb)].
      destruct Hb as (_ & Hr & Hb). split; [exact Hr|].
      exists cl. split; [exact Hb|]. split; [exact Ef|]. split; lia.
Qed.

Lemma rerender_keeps_coherent s : coherent s -> coherent (rerender s).
Proof.
  intros C. apply rerender_coherent.
  - now apply coherent_owned.
  - exact (revealed_prefix s C).
  - exact (revealed_shown s C).
  - exact (full_from_origin s C).
  - exact (stepped_long s C).
Qed.

Lemma animationFrame_coherent s : coherent s -> coherent (animationFrame s).
Proof.
  intros C. rewrite animationFrame_runCallbacks.
  destruct (callbacks s); [exact C|].
  now apply rerender_keeps_coherent, runCallbacks_coherent.
Qed.

(** A frame that runs a callback, and the render after it. *)
Lemma animationFrame_step s :
  coherent s -> callbacks s <> [] ->
  let s' := animationFrame s in
  params s' = params s
  /\ currentStep s' = currentStep s + 1
  /\ path s' = slice0 (fullPath s) (currentStep s + 2)
  /\ fullPath s' = fullPath s
  /\ cursor s' = cursor s.
Proof.
  intros C H. cbv zeta. rewrite animationFrame_runCallbacks.
  destruct (one_callback s C) as [E | (H0 & cl & E & Ef & _)];
    [contradiction|].
  rewrite E.
  destruct (rerender_frame (runCallbacks s)) as (-> & _ & -> & -> & -> & ->).
  destruct (runCallbacks_advance s _ cl E) as (Hq & Hc & Hp & Hf & Hk & _).
  rewrite Ef in Hp. auto.
Qed.


Lemma frames_no_callbacks n : forall s, callbacks s = [] -> frames n s = s.
Proof.
  induction n as [|n IH]; intros s H; [reflexivity|].
  cbn [frames]. rewrite animationFrame_no_callbacks by exact H. now apply IH.
Qed.

Variable M : MathLib.
Variable u : nat -> float.

(** ** The two buttons *)

Lemma toggleAnimation_frame s :
  params (toggleAnimation s) = params s
  /\ isAnimating (toggleAnimation s) = negb (isAnimating s)
  /\ currentStep (toggleAnimation s) = currentStep s
  /\ path (toggleAnimation s) = path s
  /\ fullPath (toggleAnimation s) = fullPath s
  /\ cursor (toggleAnimation s) = cursor s.
Proof.
  unfold toggleAnimation.
  match goal with |- context [rerender ?t] =>
    destruct (rerender_frame t) as (-> & -> & -> & -> & -> & ->) end.
  destruct (isAnimating s) eqn:A.
  - destruct (cancelCurrent_frame (set_isAnimating false s))
      as (-> & -> & -> & -> & -> & _ & _ & ->).
    split_and.
  - cbn. split_and.
Qed.

Lemma toggleAnimation_consistent s :
  consistent s -> consistent (toggleAnimation s).
Proof.
  intros C. assert (O := consistent_owned s C). unfold toggleAnimation.
  destruct (isAnimating s).
  - destruct (cancelCurrent_frame (set_isAnimating false s))
      as (_ & _ & Ec & Eq & Ef & _).
    apply rerender_consistent.
    + left. now apply cancelCurrent_callbacks.
    + rewrite Ec, Ef. exact (step_in_range s C).
    + rewrite Ec, Ef, Eq. exact (path_prefix s C).
  - apply rerender_consistent; [exact O | exact (step_in_range s C)
                                         | exact (path_prefix s C)].
Qed.

Lemma toggleAnimation_coherent s :
  coherent s -> coherent (toggleAnimation s).
Proof.
  intros C. assert (O := coherent_owned s C). unfold toggleAnimation.
  destruct (isAnimating s).
  - destruct (cancelCurrent_frame (set_isAnimating false s))
      as (_ & _ & Ec & Eq & Ef & _).
    apply rerender_coherent; unfold shown; rewrite ?Ec, ?Ef, ?Eq.
    + left. now apply cancelCurrent_callbacks.
    + exact (revealed_prefix s C).
    + exact (revealed_shown s C).
    + exact (full_from_origin s C).
    + exact (stepped_long s C).
  - apply rerender_coherent;
      [ exact O | exact (revealed_prefix s C) | exact (revealed_shown s C)
      | exact (full_from_origin s C) | exact (stepped_long s C) ].
Qed.

(** [pause] leaves no callback in the list. *)
Lemma toggleAnimation_pause s :
  owned s -> isAnimating s = true -> callbacks (toggleAnimation s) = [].
Proof.
  intros O A. unfold toggleAnimation. rewrite A.
  set (t := cancelCurrent (set_isAnimating false s)).
  assert (Ot : owned t) by (left; now apply cancelCurrent_callbacks).
  assert (R := rerender_callbacks t Ot).
  assert (P : pending t = false).
  { unfold pending, t.
    destruct (cancelCurrent_frame (set_isAnimating false s))
      as (_ & -> & _). reflexivity. }
  rewrite P in R. exact R.
Qed.


Lemma resetSimulation_frame s :
  owned s ->
  let s' := resetSimulation M u s in
  params s' = params s
  /\ isAnimating s' = false
  /\ currentStep s' = 0
  /\ path s' = []
  /\ fullPath s' = fst (generatePath M u (params s) (cursor s))
  /\ cursor s' = snd (generatePath M u (params s) (cursor s))
  /\ callbacks s' = [].
Proof.
  intros O. unfold resetSimulation. cbv zeta.
  set (s1 := set_path [] (set_currentStep 0 (set_isAnimating false s))).
  assert (O1 : owned s1) by exact O.
  destruct (cancelCurrent_frame s1) as (Ep & _ & _ & _ & _ & _ & _ & Ek).
  rewrite Ep, Ek. change (params s1) with (params s).
  change (cursor s1) with (cursor s).
  destruct (generatePath M u (params s) (cursor s)) as [fp k] eqn:G.
  match goal with |- context [rerender ?t] =>
    destruct (rerender_frame t) as (-> & -> & -> & -> & -> & ->);
    assert (R := rerender_callbacks t (or_introl (cancelCurrent_callbacks s1 O1)))
  end.
  destruct (cancelCurrent_frame s1) as (E1 & E2 & E3 & E4 & _).
  cbn. rewrite ?E1, ?E2, ?E3, ?E4. split_and.
  unfold pending in R. cbn in R. rewrite E2 in R. exact R.
Qed.

Lemma resetSimulation_consistent s :
  owned s -> consistent (resetSimulation M u s).
Proof.
  intros O.
  destruct (resetSimulation_frame s O) as (_ & Ea & Ec & Eq & Ef & _ & Eb).
  constructor.
  - rewrite Ec, Ef, generatePath_length. lia.
  - now left.
  - unfold pending. rewrite Ea. discriminate.
  - intros _. exact Eb.
Qed.

Lemma resetSimulation_coherent s :
  owned s -> coherent (resetSimulation M u s).
Proof.
  intros O.
  destruct (resetSimulation_frame s O) as (_ & Ea & Ec & Eq & Ef & _ & Eb).
  constructor.
  - now left.
  - now left.
  - rewrite Ef, generatePath_walk. cbn [fst]. eauto.
  - rewrite Ec. lia.
  - intros _. exact Eb.
  - now left.
Qed.

Lemma set_params_consistent p s : consistent s -> consistent (set_params p s).
Proof. intros [A B C D]. constructor; assumption. Qed.

Lemma set_params_coherent p s : coherent s -> coherent (set_params p s).
Proof. intros [A B C D E F]. constructor; assumption. Qed.

Lemma initialState_owned : owned initialState.
Proof. now left. Qed.

(** ** Every order of frames and renders *)

Lemma step_coherent s s' : coherent s -> step M u s s' -> coherent s'.
Proof.
  intros C St. revert C. destruct St as [t | t | t p _ | t | t]; intros C.
  - now apply toggleAnimation_coherent.
  - now apply resetSimulation_coherent, coherent_owned.
  - now apply set_params_coherent.
  - now apply runCallbacks_coherent.
  - now apply rerender_keeps_coherent.
Qed.

Lemma reachable_coherent s : reachable M u s -> coherent s.
Proof.
  induction 1 as [| s s' _ IH St].
  - apply resetSimulation_coherent, initialState_owned.
  - exact (step_coherent s s' IH St).
Qed.

Lemma animationFrame_reachable s :
  reachable M u s -> reachable M u (animationFrame s).
Proof.
  intros R. rewrite animationFrame_runCallbacks.
  destruct (callbacks s); [exact R|].
  apply (reachable_step M u (runCallbacks s)); [|apply step_render].
  apply (reachable_step M u s); [exact R | apply step_callbacks].
Qed.


Lemma unrenderedFrames_reachable n : forall s,
  reachable M u s -> reachable M u (unrenderedFrames n s).
Proof.
  induction n as [|n IH]; intros s R; [exact R|].
  cbn [unrenderedFrames]. apply IH.
  exact (reachable_step M u s _ R (step_callbacks M u s)).
Qed.

Lemma changeParams_reachable p s :
  reachable M u s -> isAnimating s = false ->
  reachable M u (changeParams M u p s).
Proof.
  intros R A. unfold changeParams.
  apply (reachable_step M u (set_params p s)); [|apply step_reset].
  apply (reachable_step M u s); [exact R | now apply step_params].
Qed.


(** ** A render after every frame *)

Lemma animationFrame_idle s :
  consistent s -> pending s = false -> animationFrame s = s.
Proof.
  intros C P. unfold animationFrame.
  now rewrite (no_frame_requested s C P).
Qed.

Lemma animationFrame_advance s :
  consistent s -> pending s = true ->
  let s' := animationFrame s in
  params s' = params s
  /\ isAnimating s' = (currentStep s + 2 <? length (fullPath s))
  /\ currentStep s' = currentStep s + 1
  /\ path s' = slice0 (fullPath s) (currentStep s + 2)
  /\ fullPath s' = fullPath s
  /\ cursor s' = cursor s
  /\ consistent s'.
Proof.
  intros C P. cbv zeta.
  destruct (frame_requested s C P) as [H0 Hcb].
  unfold animationFrame. rewrite Hcb. cbn [fold_left snd].
  unfold animate. cbn [cl_currentStep cl_fullPath].
  assert (A : isAnimating s = true).
  { unfold pending in P. now apply andb_prop in P. }
  assert (L : currentStep s + 1 < length (fullPath s)).
  { unfold pending in P. apply andb_prop in P. now apply Nat.ltb_lt. }
  destruct (Z.ltb_spec (Z.of_nat (currentStep s))
              (Z.of_nat (length (fullPath s)) - 2)) as [T | T].
  - match goal with |- context [rerender ?t] =>
      destruct (rerender_frame t) as (-> & -> & -> & -> & -> & ->);
      assert (Cs : consistent (rerender t))
    end.
    { apply rerender_consistent.
      - right. cbn. split; [discriminate | eexists; reflexivity].
      - cbn. lia.
      - right. reflexivity. }
    refine (conj _ (conj _ (conj _ (conj _ (conj _ (conj _ Cs))))));
      cbn; rewrite ?A; try reflexivity.
    + symmetry. apply Nat.ltb_lt. lia.
    + unfold slice0. f_equal. lia.
  - match goal with |- context [rerender ?t] =>
      destruct (rerender_frame t) as (-> & -> & -> & -> & -> & ->);
      assert (Cs : consistent (rerender t))
    end.
    { apply rerender_consistent.
      - left. reflexivity.
      - cbn. lia.
      - right. reflexivity. }
    refine (conj _ (conj _ (conj _ (conj _ (conj _ (conj _ Cs))))));
      cbn; try reflexivity.
    + symmetry. apply Nat.ltb_ge. lia.
    + unfold slice0. f_equal. lia.
Qed.

Lemma animationFrame_consistent s :
  consistent s -> consistent (animationFrame s).
Proof.
  intros C. destruct (pending s) eqn:P.
  - now apply animationFrame_advance.
  - now rewrite animationFrame_idle.
Qed.

Lemma inStep_consistent s : inStep M u s -> consistent s.
Proof.
  induction 1 as [| s _ IH | s _ IH | s p _ IH _ | s _ IH].
  - apply resetSimulation_consistent, initialState_owned.
  - now apply toggleAnimation_consistent.
  - now apply resetSimulation_consistent, consistent_owned.
  - now apply set_params_consistent.
  - now apply animationFrame_consistent.
Qed.

Lemma inStep_reachable s : inStep M u s -> reachable M u s.
Proof.
  induction 1 as [| s _ IH | s _ IH | s p _ IH A | s _ IH].
  - apply reachable_mounted.
  - exact (reachable_step M u s _ IH (step_toggle M u s)).
  - exact (reachable_step M u s _ IH (step_reset M u s)).
  - exact (reachable_step M u s _ IH (step_params M u s p A)).
  - now apply animationFrame_reachable.
Qed.

Lemma frames_inStep n : forall s, inStep M u s -> inStep M u (frames n s).
Proof.
  induction n as [|n IH]; intros s R; [exact R|].
  cbn [frames]. now apply IH, inStep_frame.
Qed.

Lemma frames_idle n : forall s,
  consistent s -> pending s = false -> frames n s = s.
Proof.
  induction n as [|n IH]; intros s C P; [reflexivity|].
  cbn [frames]. rewrite animationFrame_idle by assumption. now apply IH.
Qed.

Lemma frames_consistent n : forall s, consistent s -> consistent (frames n s).
Proof.
  induction n as [|n IH]; intros s C; [exact C|].
  cbn [frames]. now apply IH, animationFrame_consistent.
Qed.

(** [n] frames while animating: the step advances by one per frame up to
    the last sample, where the animation stops. *)
Lemma frames_running n : forall s,
  consistent s -> pending s = true ->
  let s' := frames n s in
  currentStep s' = Nat.min (currentStep s + n) (length (fullPath s) - 1)
  /\ fullPath s' = fullPath s
  /\ isAnimating s' = (currentStep s + n + 1 <? length (fullPath s))
  /\ pending s' = (currentStep s + n + 1 <? length (fullPath s)).
Proof.
  induction n as [|n IH]; intros s C P; cbv zeta.
  - cbn [frames]. rewrite Nat.add_0_r.
    assert (P' := P). unfold pending in P'. apply andb_prop in P'.
    destruct P' as [A L]. rewrite P, L, A. apply Nat.ltb_lt in L.
    split_and. lia.
  - cbn [frames].
    destruct (animationFrame_advance s C P) as (_ & Ea & Ec & _ & Ef & _ & C').
    assert (L : currentStep s + 1 < length (fullPath s)).
    { unfold pending in P. apply andb_prop in P. now apply Nat.ltb_lt. }
    destruct (pending (animationFrame s)) eqn:P'.
    + destruct (IH _ C' P') as (Hc & Hf & Ha & Hp).
      rewrite Hc, Hf, Ha, Hp, Ec, Ef.
      replace (currentStep s + 1 + n) with (currentStep s + S n) by lia.
      split_and.
    + rewrite (frames_idle n _ C' P'). rewrite P', Ec, Ef, Ea.
      unfold pending in P'. rewrite Ea, Ec, Ef in P'.
      assert (E : (currentStep s + 2 <? length (fullPath s)) = false).
      { destruct (currentStep s + 2 <? length (fullPath s)) eqn:E;
          [|reflexivity].
        cbn in P'. apply Nat.ltb_ge in P'. apply Nat.ltb_lt in E. lia. }
      rewrite E. apply Nat.ltb_ge in E.
      assert (E' : (currentStep s + S n + 1 <? length (fullPath s)) = false)
        by (apply Nat.ltb_ge; lia).
      rewrite E'. split_and. lia.
Qed.


(** [start] from a stopped state, then [n] frames: the loop has advanced by
    [n], or has reached the last sample; started at the last sample it
    stays as it is. *)
Lemma frames_from_stop s n :
  consistent s -> isAnimating s = false ->
  let s' := frames n (toggleAnimation s) in
  consistent s'
  /\ fullPath s' = fullPath s
  /\ currentStep s' = Nat.min (currentStep s + n) (length (fullPath s) - 1)
  /\ isAnimating s'
     = ((currentStep s + n + 1 <? length (fullPath s))
        || (length (fullPath s) <=? currentStep s + 1))
  /\ pending s' = (currentStep s + n + 1 <? length (fullPath s)).
Proof.
  intros C A. cbv zeta.
  assert (C1 := toggleAnimation_consistent s C).
  destruct (toggleAnimation_frame s) as (_ & Ea & Ec & _ & Ef & _).
  rewrite A in Ea. cbn in Ea.
  assert (L := step_in_range s C).
  split; [now apply frames_consistent|].
  destruct (pending (toggleAnimation s)) eqn:P.
  - destruct (frames_running n _ C1 P) as (Hc & Hf & Ha & Hp).
    rewrite Ec, Ef in Hc, Ha, Hp. rewrite Ef in Hf.
    rewrite Hc, Hf, Ha, Hp.
    unfold pending in P. rewrite Ea, Ec, Ef, andb_true_l in P.
    apply Nat.ltb_lt in P.
    replace (length (fullPath s) <=? currentStep s + 1) with false
      by (symmetry; apply Nat.leb_gt; lia).
    now rewrite orb_false_r.
  - assert (P0 := P).
    unfold pending in P. rewrite Ea, Ec, Ef, andb_true_l in P.
    apply Nat.ltb_ge in P.
    rewrite (frames_idle n _ C1 P0), P0, Ec, Ef, Ea.
    replace (currentStep s + n + 1 <? length (fullPath s)) with false
      by (symmetry; apply Nat.ltb_ge; lia).
    replace (length (fullPath s) <=? currentStep s + 1) with true
      by (symmetry; apply Nat.leb_le; lia).
    split_and. lia.
Qed.

End PlaybackFacts.

(** ** The playback claims *)

Section PlaybackClaims.

Variable M : MathLib.
Variable u : nat -> float.



(** C5: [pause] while running empties the callback list, so that no frame
    changes the state afterwards, and changes [isAnimating] only: the step,
    the revealed path, the full path, the parameters and the draws are as
    before; [start] then [pause] from the first sample, with no frame in
    between, leaves [revealedCount] at 1 whatever frames follow. *)
Theorem pause_keeps_position :
  (forall s,
     reachable M u s -> isAnimating s = true ->
     let s' := toggleAnimation s in
     isAnimating s' = false
     /\ callbacks s' = []
     /\ (forall k, frames k s' = s')
     /\ currentStep s' = currentStep s
     /\ path s' = path s
     /\ fullPath s' = fullPath s
     /\ params s' = params s
     /\ cursor s' = cursor s)
  /\ (forall s k,
        reachable M u s -> isAnimating s = false -> currentStep s = 0 ->
        let s' := frames k (toggleAnimation (toggleAnimation s)) in
        revealedCount s' = 1 /\ path s' = path s /\ isAnimating s' = false).
Proof.
  split.
  - intros s R A. cbv zeta.
    assert (O := coherent_owned s (reachable_coherent M u s R)).
    assert (B := toggleAnimation_pause s O A).
    destruct (toggleAnimation_frame s) as (Ep & Ea & Ec & Eq & Ef & Ek).
    rewrite A in Ea. split_and; auto.
    intros k. now apply frames_no_callbacks.
  - intros s k R A Z. cbv zeta.
    assert (C1 := toggleAnimation_coherent s (reachable_coherent M u s R)).
    destruct (toggleAnimation_frame s) as (_ & Ea & Ec & Eq & _).
    rewrite A in Ea. cbn in Ea.
    assert (B := toggleAnimation_pause _ (coherent_owned _ C1) Ea).
    rewrite (frames_no_callbacks k _ B).
    destruct (toggleAnimation_frame (toggleAnimation s))
      as (_ & Ea2 & Ec2 & Eq2 & _).
    unfold revealedCount. rewrite Ec2, Eq2, Ea2, Ec, Eq, Ea, Z. auto.
Qed.



End PlaybackClaims.

Section PlaybackInstances.

Let M := SampleHost.math.
Let u := SampleHost.draws.

(** The page after the first render, and after 5 has been typed as the
    number of steps and the initialising effect has run. *)
Let page : State := mounted M u.
Let short : State := changeParams M u SampleHost.fiveSteps page.

Lemma short_reachable : reachable M u short.
Proof.
  apply changeParams_reachable; [apply reachable_mounted|].
  vm_compute. reflexivity.
Qed.


Lemma started_reachable : reachable M u (toggleAnimation short).
Proof.
  apply (reachable_step M u short); [apply short_reachable|].
  apply step_toggle.
Qed.



(** A run of five steps, started, three frames later. *)
Let running : State := frames 3 (toggleAnimation short).




Lemma pause_keeps_position_witness :
  let s := toggleAnimation short in
  isAnimating (toggleAnimation s) = false
  /\ callbacks (toggleAnimation s) = []
  /\ currentStep (toggleAnimation s) = currentStep s.
Proof.
  cbv zeta.
  destruct (proj1 (pause_keeps_position M u) (toggleAnimation short)
              started_reachable) as (A & B & _ & C & _).
  - vm_compute. reflexivity.
  - exact (conj A (conj B C)).
Defined.



(** Three frames into a path of six samples. *)
Example playback_run :
  let s := frames 3 (toggleAnimation short) in
  (currentStep s, length (path s), isAnimating s, length (callbacks s))
  = (3, 4, true, 1).
Proof. vm_compute. reflexivity. Qed.

(** Five frames reach the last sample; the sixth finds nothing to run. *)
Example playback_end :
  let s := frames 6 (toggleAnimation short) in
  (currentStep s, length (path s), isAnimating s, length (callbacks s))
  = (5, 6, false, 0).
Proof. vm_compute. reflexivity. Qed.

(** Two frames before a render: the callback that waits holds the step of
    the render that created it. *)
Example stale_closure :
  let s := unrenderedFrames 2 (toggleAnimation short) in
  (currentStep s, map (fun e => cl_currentStep (snd e)) (callbacks s))
  = (2, [0]).
Proof. vm_compute. reflexivity. Qed.

End PlaybackInstances.

(** * The value axis *)

Section RendererFacts.

Local Open Scope float_scope.

Lemma minValue_origin fp vals :
  map value fp = 0 :: vals -> Renderer.minValue fp = Math_min (map value fp).
Proof.
  intros E. unfold Renderer.minValue, Renderer.allValues. rewrite E.
  apply Binary64.Math_min_origin.
Qed.

Lemma maxValue_origin fp vals :
  map value fp = 0 :: vals -> Renderer.maxValue fp = Math_max (map value fp).
Proof.
  intros E. unfold Renderer.maxValue, Renderer.allValues. rewrite E.
  apply Binary64.Math_max_origin.
Qed.

Lemma maxAbsValue_spec fp vals :
  map value fp = 0 :: vals -> Renderer.maxAbsValue fp = maxAbs_spec fp.
Proof.
  intros E. unfold Renderer.maxAbsValue, maxAbs_spec. cbv zeta.
  now rewrite (minValue_origin fp vals E), (maxValue_origin fp vals E).
Qed.

Lemma range_from_origin fp vals :
  map value fp = 0 :: vals ->
  Renderer.range fp = Math_max [maxAbs_spec fp * 1.2; 0.5]
  /\ Renderer.range fp = range_spec fp.
Proof.
  intros E.
  assert (R : Renderer.range fp = Math_max [maxAbs_spec fp * 1.2; 0.5]).
  { unfold Renderer.range. now rewrite (maxAbsValue_spec fp vals E). }
  split; [exact R|].
  rewrite R. unfold range_spec, maxAbs_spec. cbv zeta.
  now rewrite Binary64.mul_comm.
Qed.

(** C8 (as amended): for every full path, that is every path
    [generatePath] returns, the range the canvas uses is
    [max(1.2 * max(|min value|, |max value|), 0.5)] over the full path, in
    double precision; a maximum absolute value of 3.0 gives
    3.5999999999999996, the double just below 3.6, and a maximum absolute
    value of 0.1 gives the floor 0.5. *)
Theorem range_policy (M : MathLib) (u : nat -> float) (p : Params) (c : nat) :
  let fp := fst (generatePath M u p c) in
  Renderer.range fp = range_spec fp
  /\ (maxAbs_spec fp = 3 ->
      Renderer.range fp = 3.5999999999999996
      /\ next_up (Renderer.range fp) = 3.6)
  /\ (maxAbs_spec fp = 0.1 -> Renderer.range fp = 0.5).
Proof.
  cbv zeta.
  assert (E : exists vals,
             map value (fst (generatePath M u p c)) = 0 :: vals).
  { rewrite generatePath_walk. cbn [fst map value origin]. eauto. }
  destruct E as [vals E].
  destruct (range_from_origin _ vals E) as [R S].
  split; [exact S|]. split; intros H; rewrite R, H.
  - split; reflexivity.
  - reflexivity.
Qed.

End RendererFacts.

Section RendererInstances.

Local Open Scope float_scope.

(** C8, as stated, fails: the path generated with drift 3 and no diffusion
    over one step of length 1 has the values 0 and 3; its maximum absolute
    value is 3.0 and its range is 3.5999999999999996, which is below 3.6. *)
Lemma range_of_three :
  let fp :=
    fst (generatePath SampleHost.math SampleHost.draws SampleHost.steady
           0%nat) in
  map value fp = [0; 3]
  /\ maxAbs_spec fp = 3
  /\ Renderer.range fp = 3.5999999999999996
  /\ (Renderer.range fp =? 3.6) = false
  /\ (Renderer.range fp <? 3.6) = true.
Proof. vm_compute. repeat split. Qed.

Lemma range_policy_witness :
  let fp :=
    fst (generatePath SampleHost.math SampleHost.draws SampleHost.steady
           0%nat) in
  Renderer.range fp = range_spec fp
  /\ Renderer.range fp = 3.5999999999999996.
Proof.
  cbv zeta.
  destruct (range_policy SampleHost.math SampleHost.draws SampleHost.steady
              0%nat) as (A & B & _).
  split; [exact A|]. apply B. vm_compute. reflexivity.
Defined.

(** The floor, on a path whose values stay within 0.1 of the origin. *)
Example range_floor :
  let fp := [{| time := 0; value := 0 |}; {| time := 1; value := - 0.1 |};
             {| time := 2; value := 0.05 |}] in
  maxAbs_spec fp = 0.1 /\ Renderer.range fp = 0.5.
Proof. vm_compute. split; reflexivity. Qed.

(** The range of a path of five steps. *)
Example range_generated :
  let fp :=
    fst (generatePath SampleHost.math SampleHost.draws
           SampleHost.fiveSteps 0%nat) in
  Renderer.range fp = range_spec fp /\ Renderer.range fp = 1.5658847364562056.
Proof. vm_compute. split; reflexivity. Qed.

End RendererInstances.

(** * Further properties of the playback loop *)

Section PlaybackMore.

Variable M : MathLib.
Variable u : nat -> float.

(** At most one animation frame callback is pending in a reachable state:
    the one [animationRef] names.  Its closure holds the full path of the
    state and the step of the render that made it, which is at most the
    current step and below the last index; once React has rendered, the
    callback pending is the one of that render, with the current step. *)
Theorem single_pending_callback (s : State) :
  reachable M u s ->
  (callbacks s = []
   \/ exists cl,
        callbacks s = [(animationRef s, cl)]
        /\ cl_fullPath cl = fullPath s
        /\ cl_currentStep cl <= currentStep s
        /\ cl_currentStep cl + 1 < length (fullPath s))
  /\ (callbacks (rerender s) = []
      \/ callbacks (rerender s)
         = [(animationRef (rerender s),
             {| cl_currentStep := currentStep s; cl_fullPath := fullPath s |})]).
Proof.
  intros R. assert (C := reachable_coherent M u s R). split.
  - destruct (one_callback s C) as [E | (_ & cl & H)]; [now left | right].
    now exists cl.
  - assert (H := rerender_callbacks s (coherent_owned s C)).
    destruct (pending s); [right; exact (proj2 H) | now left].
Qed.

(** A frame that runs [animate] advances [revealedCount] by exactly one and
    reveals the samples [fullPath[0 .. revealedCount)]. *)
Theorem frame_advances_by_one (s : State) :
  reachable M u s -> callbacks s <> [] ->
  revealedCount (animationFrame s) = revealedCount s + 1
  /\ path (animationFrame s)
     = slice0 (fullPath s) (revealedCount (animationFrame s)).
Proof.
  intros R H. assert (C := reachable_coherent M u s R).
  destruct (animationFrame_step s C H) as (_ & Ec & Ep & _).
  unfold revealedCount. rewrite Ec, Ep. split; [reflexivity|].
  unfold slice0. f_equal. lia.
Qed.

Lemma revealed_last s :
  coherent s -> path s <> [] ->
  2 <= length (path s)
  /\ path s = slice0 (fullPath s) (currentStep s + 1)
  /\ sample (path s) (length (path s) - 1)
     = sample (fullPath s)
         (Nat.min (currentStep s) (length (fullPath s) - 1)).
Proof.
  intros C H.
  destruct (revealed_prefix s C) as [E | E]; [contradiction|].
  destruct (revealed_shown s C) as [S | S]; [contradiction|].
  assert (L := stepped_long s C S).
  assert (N : length (path s)
              = Nat.min (currentStep s + 1) (length (fullPath s))).
  { rewrite E. unfold slice0. now rewrite length_firstn. }
  split; [lia|]. split; [exact E|].
  rewrite N. rewrite E at 1. unfold sample, slice0. rewrite nth_firstn.
  replace (Nat.min (currentStep s + 1) (length (fullPath s)) - 1
           <? currentStep s + 1) with true
    by (symmetry; apply Nat.ltb_lt; lia).
  f_equal. lia.
Qed.



End PlaybackMore.

Section GeneratorMore.

Variable M : MathLib.
Variable u : nat -> float.

(** One generation reads exactly [2 * steps] numbers from [Math.random],
    and none when [steps] is not positive. *)
Theorem generatePath_draws (p : Params) (c : nat) :
  snd (generatePath M u p c) = c + 2 * Z.to_nat (steps p).
Proof. now rewrite generatePath_walk. Qed.

End GeneratorMore.

Section MoreInstances.

Let M := SampleHost.math.
Let u := SampleHost.draws.
Let short : State :=
  changeParams M u SampleHost.fiveSteps (mounted M u).

(** Started, then two frames before React renders. *)
Let ahead : State := unrenderedFrames 2 (toggleAnimation short).

Lemma ahead_reachable : reachable M u ahead.
Proof. apply unrenderedFrames_reachable, started_reachable. Qed.

Lemma single_pending_callback_witness :
  currentStep ahead = 2
  /\ exists cl,
       callbacks ahead = [(animationRef ahead, cl)]
       /\ cl_currentStep cl <= currentStep ahead.
Proof.
  split; [vm_compute; reflexivity|].
  destruct (proj1 (single_pending_callback M u ahead ahead_reachable))
    as [E | (cl & E & _ & L & _)].
  - vm_compute in E. discriminate E.
  - exists cl. exact (conj E L).
Defined.

Lemma frame_advances_by_one_witness :
  revealedCount (animationFrame ahead) = revealedCount ahead + 1.
Proof.
  refine (proj1 (frame_advances_by_one M u _ ahead_reachable _)).
  vm_compute. discriminate.
Defined.



End MoreInstances.

(** * More facts about doubles *)

Module Binary64More.

Local Open Scope float_scope.

Import Binary64.

Lemma is_nan_SF x : is_nan x = SFnan (Prim2SF x).
Proof.
  unfold is_nan. rewrite eqb_spec.
  destruct (Prim2SF x) as [[|] | [|] | | s m e]; try reflexivity.
  unfold SFeqb. now rewrite SFcompare_refl_finite.
Qed.

Lemma shr_1_nonneg mrs : (0 <= shr_m mrs)%Z -> (0 <= shr_m (shr_1 mrs))%Z.
Proof.
  destruct mrs as [m r s]. cbn [shr_m]. intros H.
  destruct m as [|[p|p|]|p]; cbn; lia.
Qed.

Lemma iter_shr_1_nonneg p : forall mrs,
  (0 <= shr_m mrs)%Z -> (0 <= shr_m (iter_pos shr_1 p mrs))%Z.
Proof.
  induction p as [p IH|p IH|]; intros mrs H; cbn [iter_pos].
  - apply IH, IH, shr_1_nonneg, H.
  - apply IH, IH, H.
  - apply shr_1_nonneg, H.
Qed.

Lemma shr_fexp_nonneg m e l :
  (0 <= m)%Z -> (0 <= shr_m (fst (shr_fexp prec emax m e l)))%Z.
Proof.
  intros H. unfold shr_fexp, shr.
  assert (H0 : (0 <= shr_m (shr_record_of_loc m l))%Z).
  { destruct l as [|[| |]]; exact H. }
  destruct (_ - e)%Z; cbn [fst]; auto using iter_shr_1_nonneg.
Qed.

Lemma binary_round_aux_not_nan sx mx ex lx :
  (0 <= mx)%Z -> SFnan (binary_round_aux prec emax sx mx ex lx) = false.
Proof.
  intros H. unfold binary_round_aux.
  assert (H1 := shr_fexp_nonneg mx ex lx H).
  destruct (shr_fexp prec emax mx ex lx) as [mrs' e'].
  cbn [fst] in H1.
  assert (H2 : (0 <= round_nearest_even (shr_m mrs') (loc_of_shr_record mrs'))%Z).
  { unfold round_nearest_even.
    destruct (loc_of_shr_record mrs') as [|[| |]]; try lia.
    destruct (Z.even _); lia. }
  assert (H3 := shr_fexp_nonneg _ e' loc_Exact H2).
  destruct (shr_fexp prec emax _ e' loc_Exact) as [mrs'' e''].
  cbn [fst] in H3.
  destruct (shr_m mrs''); [reflexivity | | lia].
  destruct (Z.leb _ _); reflexivity.
Qed.

Lemma mul_finite_not_nan x y :
  is_nan x = false -> is_finite y = true -> is_zero y = false ->
  is_nan (x * y) = false.
Proof.
  rewrite !is_nan_SF, is_finite_SF, mul_spec.
  unfold is_zero. rewrite eqb_spec.
  change (Prim2SF 0) with (S754_zero false).
  destruct (Prim2SF x) as [[|] | [|] | | sx mx ex],
           (Prim2SF y) as [[|] | [|] | | sy my ey];
    cbn; try congruence; intros _ _ _;
    apply binary_round_aux_not_nan; lia.
Qed.

Lemma abs_not_nan x : is_nan (abs x) = is_nan x.
Proof.
  rewrite !is_nan_SF, abs_spec. by_class x; reflexivity.
Qed.

(** Two numbers compare. *)
Lemma SFcompare_antisym f g :
  SFcompare g f = option_map CompOpp (SFcompare f g).
Proof.
  destruct f as [[|] | [|] | | [|] m1 e1], g as [[|] | [|] | | [|] m2 e2];
    cbn; try reflexivity;
    change (Pos.compare_cont Eq) with Pos.compare;
    rewrite (Z.compare_antisym e2 e1);
    destruct (e2 ?= e1)%Z; cbn; try reflexivity;
    rewrite (Pos.compare_antisym m2 m1);
    destruct (m2 ?= m1)%positive; reflexivity.
Qed.

Lemma ltb_false_leb x y :
  is_nan x = false -> is_nan y = false ->
  (x <? y) = false -> (y <=? x) = true.
Proof.
  rewrite !is_nan_SF, ltb_spec, leb_spec. unfold SFltb, SFleb.
  rewrite (SFcompare_antisym (Prim2SF x) (Prim2SF y)).
  destruct (Prim2SF x) as [[|] | [|] | | [|] m1 e1],
           (Prim2SF y) as [[|] | [|] | | [|] m2 e2];
    cbn; try congruence;
    change (Pos.compare_cont Eq) with Pos.compare;
    destruct (e1 ?= e2)%Z; cbn; try congruence;
    destruct (m1 ?= m2)%positive; cbn; congruence.
Qed.

Lemma ltb_nan_l x : (nan <? x) = false.
Proof. rewrite ltb_spec. change (Prim2SF nan) with S754_nan. reflexivity. Qed.

Lemma ltb_nan_r x : (x <? nan) = false.
Proof.
  rewrite ltb_spec. change (Prim2SF nan) with S754_nan.
  by_class x; reflexivity.
Qed.

Lemma is_nan_eq x : is_nan x = true -> x = nan.
Proof.
  rewrite is_nan_SF. intros H. apply float_of_SF with (f := S754_nan).
  by_class x; try discriminate H; reflexivity.
Qed.


Lemma is_zero_SF x : is_zero x = SFzero (Prim2SF x).
Proof.
  unfold is_zero. rewrite eqb_spec.
  change (Prim2SF 0) with (S754_zero false). by_class x; reflexivity.
Qed.

Lemma zero_div_truthy x : truthy x = true -> zeroish (0 / x).
Proof.
  unfold truthy. rewrite is_nan_SF, is_zero_SF. intros H.
  assert (E := div_spec 0 x).
  change (Prim2SF 0) with (S754_zero false) in E.
  destruct (Prim2SF x) as [[|] | [|] | | [|] m e]; try discriminate H;
    apply float_of_SF in E; rewrite E; cbn; unfold zeroish; auto.
Qed.

Lemma leb_half_truthy x : (0.5 <=? x) = true -> truthy x = true.
Proof.
  unfold truthy. rewrite leb_spec, is_nan_SF, is_zero_SF.
  by_class x; cbn; congruence.
Qed.

Lemma div_nan_r x : x / nan = nan.
Proof.
  apply Prim2SF_inj. rewrite div_spec.
  change (Prim2SF nan) with S754_nan. by_class x; reflexivity.
Qed.

Lemma truthy_not_neg_zero x :
  truthy x = true -> is_nan x = false /\ is_neg_zero x = false.
Proof.
  unfold truthy. intros H. apply negb_true_iff, orb_false_iff in H.
  destruct H as [Hn Hz]. split; [exact Hn|].
  destruct (is_neg_zero x) eqn:E; [|reflexivity].
  apply is_neg_zero_eq in E. subst x. discriminate Hz.
Qed.

End Binary64More.

Import Binary64 Binary64More.

(** * The range of the value axis *)

Section RangeFacts.

Local Open Scope float_scope.

Lemma min_step_nan lowest number :
  is_nan (min_step lowest number) = is_nan lowest || is_nan number.
Proof.
  unfold min_step. destruct (is_nan number) eqn:N.
  - now rewrite orb_true_r.
  - rewrite orb_false_r.
    destruct (is_nan lowest) eqn:L.
    + apply is_nan_eq in L. subst lowest.
      change (is_pos_zero nan) with false. rewrite andb_false_r, ltb_nan_r.
      reflexivity.
    + destruct (_ && _); [reflexivity|].
      destruct (number <? lowest); assumption.
Qed.

Lemma max_step_nan highest number :
  is_nan (max_step highest number) = is_nan highest || is_nan number.
Proof.
  unfold max_step. destruct (is_nan number) eqn:N.
  - now rewrite orb_true_r.
  - rewrite orb_false_r.
    destruct (is_nan highest) eqn:L.
    + apply is_nan_eq in L. subst highest.
      change (is_neg_zero nan) with false. rewrite andb_false_r, ltb_nan_l.
      reflexivity.
    + destruct (_ && _); [reflexivity|].
      destruct (highest <? number); assumption.
Qed.

Lemma fold_min_step_nan l : forall a,
  is_nan (fold_left min_step l a) = is_nan a || existsb is_nan l.
Proof.
  induction l as [|v l IH]; intros a; cbn [fold_left existsb].
  - now rewrite orb_false_r.
  - now rewrite IH, min_step_nan, orb_assoc.
Qed.

Lemma fold_max_step_nan l : forall a,
  is_nan (fold_left max_step l a) = is_nan a || existsb is_nan l.
Proof.
  induction l as [|v l IH]; intros a; cbn [fold_left existsb].
  - now rewrite orb_false_r.
  - now rewrite IH, max_step_nan, orb_assoc.
Qed.

Lemma Math_min_nan l : is_nan (Math_min l) = existsb is_nan l.
Proof. unfold Math_min. now rewrite fold_min_step_nan. Qed.

Lemma Math_max_nan l : is_nan (Math_max l) = existsb is_nan l.
Proof. unfold Math_max. now rewrite fold_max_step_nan. Qed.

Lemma existsb_values fp :
  existsb is_nan (Renderer.allValues fp ++ [0])
  = existsb (fun pt => is_nan (value pt)) fp.
Proof.
  rewrite existsb_app. cbn. rewrite orb_false_r.
  unfold Renderer.allValues. induction fp as [|pt fp IH]; cbn; congruence.
Qed.

Lemma maxAbsValue_nan fp :
  is_nan (Renderer.maxAbsValue fp)
  = existsb (fun pt => is_nan (value pt)) fp.
Proof.
  unfold Renderer.maxAbsValue, Renderer.minValue, Renderer.maxValue.
  rewrite Math_max_nan. cbn [existsb]. unfold Math_abs.
  rewrite !abs_not_nan, Math_min_nan, Math_max_nan, existsb_values.
  now rewrite orb_false_r, orb_diag.
Qed.

Lemma mul_scale_nan x : is_nan (x * 1.2) = is_nan x.
Proof.
  destruct (is_nan x) eqn:N.
  - apply is_nan_eq in N. now subst x.
  - now apply mul_finite_not_nan.
Qed.


Lemma range_nan fp :
  is_nan (Renderer.range fp) = existsb (fun pt => is_nan (value pt)) fp.
Proof.
  unfold Renderer.range. rewrite Math_max_nan. cbn [existsb].
  rewrite mul_scale_nan, maxAbsValue_nan.
  change (is_nan 0.5) with false. now rewrite !orb_false_r.
Qed.

Lemma range_at_least_half fp :
  is_nan (Renderer.range fp) = false -> (0.5 <=? Renderer.range fp) = true.
Proof.
  intros N. assert (N' := N). unfold Renderer.range in N' |- *.
  set (a := Renderer.maxAbsValue fp * 1.2) in *.
  unfold Math_max in N' |- *. cbn [fold_left] in N' |- *.
  set (h := max_step neg_infinity a) in *.
  rewrite max_step_nan in N'. change (is_nan 0.5) with false in N'.
  rewrite orb_false_r in N'.
  unfold max_step at 1. change (is_nan 0.5) with false.
  change (is_pos_zero 0.5) with false. cbn [andb].
  destruct (h <? 0.5) eqn:E; [reflexivity|].
  now apply ltb_false_leb.
Qed.

Lemma x_origin L pt : truthy L = true -> time pt = 0 -> Canvas.x L pt = 40.
Proof.
  intros T E. unfold Canvas.x. rewrite E.
  destruct (zero_div_truthy L T) as [-> | ->]; reflexivity.
Qed.

Lemma y_origin r pt :
  (0.5 <=? r) = true -> value pt = 0 -> Canvas.y r pt = 200.
Proof.
  intros T E. unfold Canvas.y. rewrite E.
  destruct (zero_div_truthy r (leb_half_truthy r T)) as [-> | ->];
    reflexivity.
Qed.

Lemma y_nan pt : Canvas.y nan pt = nan.
Proof. unfold Canvas.y. now rewrite div_nan_r. Qed.

End RangeFacts.

(** * The page *)

Section PageFacts.

Variable M : MathLib.
Variable u : nat -> float.

Local Open Scope float_scope.

Lemma normalDraws_local (u' : nat -> float) n : forall c,
  (forall k, (c <= k < c + 2 * n)%nat -> u k = u' k) ->
  normalDraws M u n c = normalDraws M u' n c.
Proof.
  induction n as [|n IH]; intros c H; [reflexivity|].
  rewrite !normalDraws_S, (IH (S (S c))) by (intros k Hk; apply H; lia).
  now rewrite (H c), (H (S c)) by lia.
Qed.

(** [animate] writes the step, the revealed path, [isAnimating], the ref
    and the list only. *)
Lemma animate_frame cl s :
  params (animate cl s) = params s
  /\ fullPath (animate cl s) = fullPath s
  /\ cursor (animate cl s) = cursor s.
Proof. unfold animate. destruct (_ <? _)%Z; cbn; split_and. Qed.

Lemma runCallbacks_frame s :
  params (runCallbacks s) = params s
  /\ fullPath (runCallbacks s) = fullPath s
  /\ cursor (runCallbacks s) = cursor s.
Proof.
  unfold runCallbacks. destruct (callbacks s) as [|e cbs]; [split_and|].
  assert (G : forall (l : list (nat * Closure)) t,
             let t' := fold_left (fun st e => animate (snd e) st) l t in
             params t' = params t /\ fullPath t' = fullPath t
             /\ cursor t' = cursor t).
  { induction l as [|e' l IH]; intros t; cbv zeta; cbn [fold_left];
      [split_and|].
    destruct (IH (animate (snd e') t)) as (-> & -> & ->).
    apply animate_frame. }
  exact (G (e :: cbs) (set_callbacks [] (lastHandle s) s)).
Qed.

Lemma resetSimulation_generated s :
  owned s -> generated M u (resetSimulation M u s).
Proof.
  intros O.
  destruct (resetSimulation_frame M u s O) as (Ep & _ & _ & _ & Ef & Ek & _).
  exists (cursor s). rewrite Ep, Ef, Ek. split; [reflexivity|].
  now rewrite generatePath_walk.
Qed.

Lemma settled_reachable s : settled M u s -> reachable M u s.
Proof.
  induction 1 as [| s _ IH | s _ IH | s p _ IH A | s _ IH | s _ IH].
  - apply reachable_mounted.
  - exact (reachable_step M u s _ IH (step_toggle M u s)).
  - exact (reachable_step M u s _ IH (step_reset M u s)).
  - now apply changeParams_reachable.
  - exact (reachable_step M u s _ IH (step_callbacks M u s)).
  - exact (reachable_step M u s _ IH (step_render M u s)).
Qed.

Lemma settled_generated s : settled M u s -> generated M u s.
Proof.
  induction 1 as [| s H IH | s H IH | s p H IH A | s H IH | s H IH].
  - apply resetSimulation_generated, initialState_owned.
  - destruct (toggleAnimation_frame s) as (Ep & _ & _ & _ & Ef & Ek).
    destruct IH as (c & E1 & E2). exists c. rewrite Ep, Ef, Ek. split; assumption.
  - apply resetSimulation_generated, coherent_owned,
      (reachable_coherent M u), settled_reachable, H.
  - unfold changeParams. apply resetSimulation_generated.
    exact (coherent_owned s
             (reachable_coherent M u s (settled_reachable s H))).
  - destruct (runCallbacks_frame s) as (Ep & Ef & Ek).
    destruct IH as (c & E1 & E2). exists c. rewrite Ep, Ef, Ek. split; assumption.
  - destruct (rerender_frame s) as (Ep & _ & _ & _ & Ef & Ek).
    destruct IH as (c & E1 & E2). exists c. rewrite Ep, Ef, Ek. split; assumption.
Qed.

Lemma onStepsChange_settled s n :
  settled M u s -> isAnimating s = false ->
  settled M u (resetSimulation M u (onStepsChange n s)).
Proof.
  intros H A. unfold onStepsChange. exact (settled_params M u s _ H A).
Qed.

Lemma onPage_reachable s : onPage M u s -> reachable M u s.
Proof.
  induction 1 as [| s _ IH | s _ IH | s _ IH | s _ IH
                  | s x _ IH A | s x _ IH A | s x _ IH A | s n _ IH A].
  - apply reachable_mounted.
  - exact (reachable_step M u s _ IH (step_toggle M u s)).
  - exact (reachable_step M u s _ IH (step_reset M u s)).
  - exact (reachable_step M u s _ IH (step_callbacks M u s)).
  - exact (reachable_step M u s _ IH (step_render M u s)).
  - exact (reachable_step M u s _ IH (step_params M u s _ A)).
  - exact (reachable_step M u s _ IH (step_params M u s _ A)).
  - exact (reachable_step M u s _ IH (step_params M u s _ A)).
  - exact (reachable_step M u s _ IH (step_params M u s _ A)).
Qed.

Lemma onPage_frame s : onPage M u s -> onPage M u (animationFrame s).
Proof.
  intros H. rewrite animationFrame_runCallbacks.
  destruct (callbacks s); [exact H|].
  now apply onPage_render, onPage_callbacks.
Qed.

Lemma orElse_zero x :
  is_nan (orElse x 0) = false /\ is_neg_zero (orElse x 0) = false.
Proof.
  unfold orElse. destruct (truthy x) eqn:T.
  - now apply Binary64More.truthy_not_neg_zero.
  - split; reflexivity.
Qed.

Lemma orElse_truthy x d : truthy d = true -> truthy (orElse x d) = true.
Proof. intros D. unfold orElse. now destruct (truthy x) eqn:T. Qed.

Lemma onPage_sane s : onPage M u s -> sane (params s).
Proof.
  induction 1 as [| s H IH | s H IH | s H IH | s H IH
                  | s x H IH A | s x H IH A | s x H IH A | s n H IH A].
  - destruct (resetSimulation_frame M u initialState initialState_owned)
      as (E & _).
    unfold mounted. rewrite E. repeat split.
  - now destruct (toggleAnimation_frame s) as (-> & _).
  - assert (O := coherent_owned s
                   (reachable_coherent M u s (onPage_reachable s H))).
    now destruct (resetSimulation_frame M u s O) as (-> & _).
  - now destruct (runCallbacks_frame s) as (-> & _).
  - now destruct (rerender_frame s) as (-> & _).
  - destruct IH as (_ & I2 & I3). split; [apply orElse_zero|]. now split.
  - destruct IH as (I1 & _ & I3). split; [exact I1|].
    split; [apply orElse_zero | exact I3].
  - destruct IH as (I1 & I2 & _). split; [exact I1|]. split; [exact I2|].
    now apply orElse_truthy.
  - exact IH.
Qed.

Lemma drawPath_revealed s :
  coherent s -> path s <> [] ->
  (2 <= length (path s))%nat
  /\ Canvas.drawPath s
     = Some
         {| Canvas.polyline :=
              map (fun pt =>
                     (Canvas.x (intervalLength (params s)) pt,
                      Canvas.y (Renderer.range (fullPath s)) pt))
                (slice0 (fullPath s) (currentStep s + 1));
            Canvas.marker :=
              Some (Canvas.x (intervalLength (params s))
                      (sample (fullPath s)
                         (Nat.min (currentStep s)
                            (length (fullPath s) - 1))),
                    Canvas.y (Renderer.range (fullPath s))
                      (sample (fullPath s)
                         (Nat.min (currentStep s)
                            (length (fullPath s) - 1)))) |}.
Proof.
  intros C H.
  destruct (revealed_last s C H) as (L & E & P).
  split; [exact L|].
  unfold Canvas.drawPath.
  replace (length (path s) <? 2)%nat with false
    by (symmetry; apply Nat.ltb_ge; lia).
  replace (1 <? length (path s))%nat with true
    by (symmetry; apply Nat.ltb_lt; lia).
  replace (0 <? length (path s))%nat with true
    by (symmetry; apply Nat.ltb_lt; lia).
  cbv zeta. rewrite P. now rewrite E at 1.
Qed.

End PageFacts.

(** ** Properties of the page *)

Section PageProperties.

Variable M : MathLib.
Variable u : nat -> float.

Local Open Scope float_scope.

(** One generation depends on the draws of its own window only: the
    [2 * steps] numbers from the cursor on. *)
Theorem generatePath_reads_its_window (u' : nat -> float) (p : Params)
    (c : nat) :
  (forall k, (c <= k < c + 2 * Z.to_nat (steps p))%nat -> u k = u' k) ->
  generatePath M u p c = generatePath M u' p c.
Proof.
  intros H. rewrite !generatePath_walk.
  now rewrite (normalDraws_local M u u' (Z.to_nat (steps p)) c H).
Qed.

(** Once the initialising effect has run after the last change of a field,
    whatever the order of frames and renders, the full path is the one
    generated for the parameters the fields show, from the last draws
    read: it has [max(steps, 0) + 1] samples and starts at the origin. *)
Theorem full_path_belongs_to_parameters (s : State) :
  settled M u s ->
  (exists c, fullPath s = fst (generatePath M u (params s) c)
             /\ cursor s = (c + 2 * Z.to_nat (steps (params s)))%nat)
  /\ Z.of_nat (length (fullPath s)) = (Z.max (steps (params s)) 0 + 1)%Z
  /\ sample (fullPath s) 0 = origin.
Proof.
  intros R. assert (G := settled_generated M u s R).
  split; [exact G|]. destruct G as (c & -> & _). split.
  - rewrite generatePath_length. lia.
  - apply generatePath_origin.
Qed.

(** When React renders after every frame: a stopped state ignores
    animation frames, and [start] resumes from the step where the animation
    stopped.  [N] frames later the step is [min(currentStep + N, len - 1)],
    on the same full path; the animation is running if that step is below
    [len - 1], has stopped if the frames reached the last sample, and is
    running, with no frame requested, if [start] was pressed at the last
    sample. *)
Theorem resume_continues (s : State) (N : nat) :
  inStep M u s -> isAnimating s = false ->
  animationFrame s = s
  /\ let s' := frames N (toggleAnimation s) in
     let len := length (fullPath s) in
     fullPath s' = fullPath s
     /\ currentStep s' = Nat.min (currentStep s + N) (len - 1)
     /\ isAnimating s'
        = ((currentStep s + N + 1 <? len)%nat || (len <=? currentStep s + 1)%nat)
     /\ (callbacks s' <> [] <-> (currentStep s + N + 1 < len)%nat).
Proof.
  intros R A. assert (C := inStep_consistent M u s R). split.
  - apply animationFrame_idle; [exact C|]. unfold pending. now rewrite A.
  - cbv zeta.
    destruct (frames_from_stop s N C A) as (C' & Ef & Ec & Ha & Hp).
    split; [exact Ef|]. split; [exact Ec|]. split; [exact Ha|].
    destruct (currentStep s + N + 1 <? length (fullPath s))%nat eqn:T.
    + apply Nat.ltb_lt in T. split; [intros _; exact T|]. intros _.
      destruct (frame_requested _ C' Hp) as [_ E]. rewrite E. discriminate.
    + apply Nat.ltb_ge in T. split; [|lia].
      intros H. now rewrite (no_frame_requested _ C' Hp) in H.
Qed.


End PageProperties.

Section CanvasProperties.

Variable M : MathLib.
Variable u : nat -> float.

Local Open Scope float_scope.

(** The range is NaN exactly when a value of the full path is NaN;
    otherwise it is at least 0.5, hence neither zero nor negative: the
    division by the range never divides by zero. *)
Theorem range_is_nan_or_at_least_half (fp : list BrownianPoint) :
  is_nan (Renderer.range fp) = existsb (fun pt => is_nan (value pt)) fp
  /\ (is_nan (Renderer.range fp) = false ->
      (0.5 <=? Renderer.range fp) = true
      /\ truthy (Renderer.range fp) = true).
Proof.
  split; [apply range_nan|]. intros N.
  assert (H := range_at_least_half fp N). split; [exact H|].
  now apply Binary64More.leb_half_truthy.
Qed.

(** A NaN among the values of the full path makes the y coordinate of
    every point stroked, and of the marker, NaN. *)
Theorem nan_blanks_the_plot (s : State) (d : Canvas.Drawing) :
  Canvas.drawPath s = Some d ->
  (exists pt, In pt (fullPath s) /\ is_nan (value pt) = true) ->
  (forall xy, In xy (Canvas.polyline d) -> snd xy = nan)
  /\ (forall xy, Canvas.marker d = Some xy -> snd xy = nan).
Proof.
  intros D (pt & Hin & Hn).
  assert (R : Renderer.range (fullPath s) = nan).
  { apply Binary64More.is_nan_eq. rewrite range_nan.
    apply existsb_exists. eauto. }
  unfold Canvas.drawPath in D. rewrite R in D.
  destruct (length (path s) <? 2)%nat; [discriminate|].
  destruct (1 <? length (path s))%nat.
  - injection D as <-. cbn [Canvas.polyline Canvas.marker]. split.
    + intros xy H. apply in_map_iff in H. destruct H as (q & <- & _).
      apply y_nan.
    + intros xy. destruct (0 <? length (path s))%nat; [|discriminate].
      intros [= <-]. apply y_nan.
  - injection D as <-. cbn. split; [intros xy []|discriminate].
Qed.

(** On the page the fields never hold NaN: drift and diffusion are
    numbers other than -0, the interval length is neither NaN nor zero. *)
Theorem fields_hold_numbers (s : State) :
  onPage M u s ->
  (is_nan (drift (params s)) = false
   /\ is_neg_zero (drift (params s)) = false)
  /\ (is_nan (diffusion (params s)) = false
      /\ is_neg_zero (diffusion (params s)) = false)
  /\ truthy (intervalLength (params s)) = true.
Proof. apply onPage_sane. Qed.

Lemma polyline_origin L r rest k :
  truthy L = true -> (0.5 <=? r) = true ->
  map (fun pt => (Canvas.x L pt, Canvas.y r pt))
    (slice0 (origin :: rest) (k + 1))
  = (40, 200) :: map (fun pt => (Canvas.x L pt, Canvas.y r pt)) (firstn k rest).
Proof.
  intros TL Tr. unfold slice0. rewrite Nat.add_1_r. cbn [firstn map].
  rewrite (x_origin L origin TL eq_refl), (y_origin r origin Tr eq_refl).
  reflexivity.
Qed.

(** On the page, when no value of the full path is NaN, the stroke starts
    at the left end of the line of value 0, the pixel (40, 200). *)
Theorem stroke_starts_on_zero_line (s : State) :
  onPage M u s -> path s <> [] ->
  is_nan (Renderer.range (fullPath s)) = false ->
  Canvas.zeroY = 200
  /\ exists d rest,
       Canvas.drawPath s = Some d
       /\ Canvas.polyline d = (40, Canvas.zeroY) :: rest.
Proof.
  intros P H N. split; [vm_compute; reflexivity|].
  assert (C := reachable_coherent M u s (onPage_reachable M u s P)).
  destruct (drawPath_revealed s C H) as [_ E].
  destruct (full_from_origin s C) as (rest & F).
  rewrite E. eexists. eexists. split; [reflexivity|].
  cbn [Canvas.polyline]. rewrite F at 1.
  change Canvas.zeroY with 200.
  apply polyline_origin.
  - exact (proj2 (proj2 (onPage_sane M u s P))).
  - now apply range_at_least_half.
Qed.

End CanvasProperties.

Section PageInstances.

Local Open Scope float_scope.

Let M := SampleHost.math.
Let u := SampleHost.draws.

(** The page after 5 has been typed as the number of steps and the
    initialising effect has run, started, two frames later. *)
Let typed : State :=
  resetSimulation M u (onStepsChange (Some 5%Z) (mounted M u)).
Let running : State := frames 2 (toggleAnimation typed).

Lemma typed_onPage : onPage M u typed.
Proof.
  apply onPage_reset, onPage_steps; [apply onPage_mounted|].
  vm_compute. reflexivity.
Qed.

Lemma running_onPage : onPage M u running.
Proof.
  apply onPage_frame, onPage_frame, onPage_toggle, typed_onPage.
Qed.

Lemma typed_inStep : inStep M u typed.
Proof.
  apply inStep_reset. unfold onStepsChange.
  apply inStep_params; [apply inStep_mounted|]. vm_compute. reflexivity.
Qed.

Lemma typed_settled : settled M u typed.
Proof.
  apply onStepsChange_settled; [apply settled_mounted|].
  vm_compute. reflexivity.
Qed.

Lemma generatePath_reads_its_window_witness :
  generatePath M u SampleHost.fiveSteps 0%nat
  = generatePath M
      (fun k => if (k <? 10)%nat then u k else 0) SampleHost.fiveSteps 0%nat.
Proof.
  apply generatePath_reads_its_window. intros k Hk. cbn in Hk.
  now replace (k <? 10)%nat with true by (symmetry; apply Nat.ltb_lt; lia).
Defined.

(** Started, three frames before React renders, paused. *)
Lemma full_path_belongs_to_parameters_witness :
  let s := toggleAnimation (unrenderedFrames 3 (toggleAnimation typed)) in
  Z.of_nat (length (fullPath s)) = (Z.max (steps (params s)) 0 + 1)%Z.
Proof.
  cbv zeta.
  refine (proj1 (proj2 (full_path_belongs_to_parameters M u _ _))).
  apply settled_toggle.
  cbn [unrenderedFrames].
  apply settled_callbacks, settled_callbacks, settled_callbacks,
    settled_toggle, typed_settled.
Defined.

(** Paused after two frames, started again: two frames later. *)
Lemma resume_continues_witness :
  let s := toggleAnimation running in
  currentStep (frames 2 (toggleAnimation s))
  = Nat.min (currentStep s + 2) (length (fullPath s) - 1)
  /\ isAnimating (frames 2 (toggleAnimation s))
     = ((currentStep s + 2 + 1 <? length (fullPath s))%nat
        || (length (fullPath s) <=? currentStep s + 1)%nat).
Proof.
  cbv zeta.
  destruct (resume_continues M u (toggleAnimation running) 2)
    as (_ & _ & A & B & _).
  - apply inStep_toggle, frames_inStep, inStep_toggle, typed_inStep.
  - vm_compute. reflexivity.
  - exact (conj A B).
Defined.


Lemma range_is_nan_or_at_least_half_witness :
  (0.5 <=? Renderer.range (fullPath running)) = true.
Proof.
  refine (proj1 (proj2 (range_is_nan_or_at_least_half (fullPath running)) _)).
  vm_compute. reflexivity.
Defined.

(** A state whose full path holds NaN: no drift, no diffusion, a first
    draw of 0. *)
Let blank : State :=
  let fp := fst (generatePath M SampleHost.zeroFirst
                   {| drift := 0; diffusion := 0; steps := 2;
                      intervalLength := 10 |} 0%nat) in
  {| params := {| drift := 0; diffusion := 0; steps := 2;
                  intervalLength := 10 |};
     isAnimating := false; currentStep := 2; path := fp; fullPath := fp;
     animationRef := 2; callbacks := []; lastHandle := 2; cursor := 4 |}.

Lemma nan_blanks_the_plot_witness :
  exists d,
    Canvas.drawPath blank = Some d
    /\ forall xy, In xy (Canvas.polyline d) -> snd xy = nan.
Proof.
  destruct (Canvas.drawPath blank) as [d|] eqn:D; [|discriminate D].
  exists d. split; [reflexivity|].
  refine (proj1 (nan_blanks_the_plot blank d D _)).
  exists {| time := 5; value := nan |}. split; [|reflexivity].
  vm_compute. right. left. reflexivity.
Defined.

Lemma fields_hold_numbers_witness :
  truthy (intervalLength (params (onIntervalChange nan typed))) = true.
Proof.
  refine (proj2 (proj2 (fields_hold_numbers M u _ _))).
  apply onPage_interval; [apply typed_onPage|]. vm_compute. reflexivity.
Defined.

Lemma stroke_starts_on_zero_line_witness :
  exists d rest,
    Canvas.drawPath running = Some d
    /\ Canvas.polyline d = (40, Canvas.zeroY) :: rest.
Proof.
  refine (proj2 (stroke_starts_on_zero_line M u running running_onPage _ _)).
  - vm_compute. discriminate.
  - vm_compute. reflexivity.
Defined.

(** What is stroked two frames into a run of five steps. *)
Example drawing_after_two_frames :
  option_map (fun d => (length (Canvas.polyline d), Canvas.marker d))
    (Canvas.drawPath running)
  = Some (3%nat, Some (328, 124.69883021286248)).
Proof. vm_compute. reflexivity. Qed.

(** The step is beyond the last sample after seven frames that no render
    separates: all six samples are stroked and the marker is on the last
    one. *)
Example drawing_past_the_end :
  let s := unrenderedFrames 7 (toggleAnimation typed) in
  (currentStep s,
   option_map (fun d => (length (Canvas.polyline d),
                         option_map fst (Canvas.marker d)))
     (Canvas.drawPath s))
  = (7%nat, Some (6%nat, Some 760)).
Proof. vm_compute. reflexivity. Qed.

(** Between the change of the interval length and the reset that follows,
    the old path is drawn against the new length. *)
Example drawing_between_change_and_reset :
  let s := onIntervalChange 20 (toggleAnimation running) in
  (length (fullPath s), currentStep s,
   option_map (fun d => option_map fst (Canvas.marker d)) (Canvas.drawPath s))
  = (6%nat, 2%nat, Some (Some 184)).
Proof. vm_compute. reflexivity. Qed.

End PageInstances.

(** * The order of doubles and the bounds of the values *)

Module Binary64Order.

Local Open Scope float_scope.

Lemma leb_refl x : is_nan x = false -> (x <=? x) = true.
Proof.
  rewrite is_nan_SF, leb_spec. unfold SFleb.
  destruct (Prim2SF x) as [[|] | [|] | | s m e]; try reflexivity; try discriminate.
  now rewrite SFcompare_refl_finite.
Qed.

Lemma ltb_leb x y : (x <? y) = true -> (x <=? y) = true.
Proof.
  rewrite ltb_spec, leb_spec. unfold SFltb, SFleb.
  destruct (SFcompare _ _) as [[| |]|]; congruence.
Qed.

Lemma leb_not_nan x y :
  (x <=? y) = true -> is_nan x = false /\ is_nan y = false.
Proof.
  rewrite !is_nan_SF, leb_spec. unfold SFleb.
  by_class x; by_class y; cbn; try congruence; auto.
Qed.

Lemma SFleb_trans f g h :
  SFleb f g = true -> SFleb g h = true -> SFleb f h = true.
Proof.
  unfold SFleb.
  destruct f as [[|] | [|] | | [|] m1 e1], g as [[|] | [|] | | [|] m2 e2],
           h as [[|] | [|] | | [|] m3 e3]; cbn; try congruence;
  change (Pos.compare_cont Eq) with Pos.compare;
  destruct (Z.compare_spec e1 e2), (Z.compare_spec e2 e3),
           (Z.compare_spec e1 e3);
    try lia; try congruence; subst;
  destruct (Pos.compare_spec m1 m2), (Pos.compare_spec m2 m3),
           (Pos.compare_spec m1 m3);
    cbn; try lia; congruence.
Qed.

Lemma leb_trans x y z :
  (x <=? y) = true -> (y <=? z) = true -> (x <=? z) = true.
Proof. rewrite !leb_spec. apply SFleb_trans. Qed.

Lemma is_pos_zero_eq x : is_pos_zero x = true -> x = 0.
Proof.
  unfold is_pos_zero. rewrite classify_spec. intros H.
  apply float_of_SF with (f := S754_zero false).
  unfold SF64classify, SFclassify in H.
  destruct (Prim2SF x) as [[|] | [|] | | [|] m e];
    try reflexivity; try discriminate H;
    destruct (Z.eqb _ _); discriminate H.
Qed.

Lemma abs_leb_nonneg v w :
  (0 <=? v) = true -> (v <=? w) = true -> (abs v <=? abs w) = true.
Proof.
  rewrite !leb_spec, !abs_spec.
  change (Prim2SF 0) with (S754_zero false). unfold SFleb.
  destruct (Prim2SF v) as [[|] | [|] | | [|] m1 e1],
           (Prim2SF w) as [[|] | [|] | | [|] m2 e2];
    cbn; congruence.
Qed.

Lemma abs_leb_nonpos v w :
  (v <=? 0) = true -> (w <=? v) = true -> (abs v <=? abs w) = true.
Proof.
  rewrite !leb_spec, !abs_spec.
  change (Prim2SF 0) with (S754_zero false). unfold SFleb.
  destruct (Prim2SF v) as [[|] | [|] | | [|] m1 e1],
           (Prim2SF w) as [[|] | [|] | | [|] m2 e2];
    cbn; try congruence;
    change (Pos.compare_cont Eq) with Pos.compare;
    rewrite (Z.compare_antisym e1 e2);
    destruct (e1 ?= e2)%Z; cbn; try congruence;
    rewrite (Pos.compare_antisym m1 m2);
    destruct (m1 ?= m2)%positive; cbn; congruence.
Qed.

End Binary64Order.

Import Binary64Order.

Section BoundFacts.

Local Open Scope float_scope.

Lemma min_step_leb lowest number :
  is_nan lowest = false -> is_nan number = false ->
  (min_step lowest number <=? lowest) = true
  /\ (min_step lowest number <=? number) = true.
Proof.
  intros L N. unfold min_step. rewrite N.
  destruct (is_neg_zero number && is_pos_zero lowest) eqn:Z.
  - apply andb_prop in Z. destruct Z as [Z1 Z2].
    apply is_neg_zero_eq in Z1. apply is_pos_zero_eq in Z2. subst.
    split; reflexivity.
  - destruct (number <? lowest) eqn:E.
    + split; [now apply ltb_leb | now apply leb_refl].
    + split; [now apply leb_refl | now apply ltb_false_leb].
Qed.

Lemma max_step_leb highest number :
  is_nan highest = false -> is_nan number = false ->
  (highest <=? max_step highest number) = true
  /\ (number <=? max_step highest number) = true.
Proof.
  intros L N. unfold max_step. rewrite N.
  destruct (is_pos_zero number && is_neg_zero highest) eqn:Z.
  - apply andb_prop in Z. destruct Z as [Z1 Z2].
    apply is_pos_zero_eq in Z1. apply is_neg_zero_eq in Z2. subst.
    split; reflexivity.
  - destruct (highest <? number) eqn:E.
    + split; [now apply ltb_leb | now apply leb_refl].
    + split; [now apply leb_refl | now apply ltb_false_leb].
Qed.

Lemma fold_min_step_leb l : forall a,
  is_nan a = false -> existsb is_nan l = false ->
  (fold_left min_step l a <=? a) = true
  /\ forall v, In v l -> (fold_left min_step l a <=? v) = true.
Proof.
  induction l as [|n l IH]; intros a A N; cbn [fold_left].
  - split; [now apply leb_refl | intros v []].
  - cbn [existsb] in N. apply orb_false_iff in N. destruct N as [N1 N2].
    destruct (min_step_leb a n A N1) as [H1 H2].
    assert (A' : is_nan (min_step a n) = false)
      by (rewrite min_step_nan, A, N1; reflexivity).
    destruct (IH _ A' N2) as [I1 I2]. split.
    + exact (leb_trans _ _ _ I1 H1).
    + intros v [<- | Hv]; [exact (leb_trans _ _ _ I1 H2) | now apply I2].
Qed.

Lemma fold_max_step_leb l : forall a,
  is_nan a = false -> existsb is_nan l = false ->
  (a <=? fold_left max_step l a) = true
  /\ forall v, In v l -> (v <=? fold_left max_step l a) = true.
Proof.
  induction l as [|n l IH]; intros a A N; cbn [fold_left].
  - split; [now apply leb_refl | intros v []].
  - cbn [existsb] in N. apply orb_false_iff in N. destruct N as [N1 N2].
    destruct (max_step_leb a n A N1) as [H1 H2].
    assert (A' : is_nan (max_step a n) = false)
      by (rewrite max_step_nan, A, N1; reflexivity).
    destruct (IH _ A' N2) as [I1 I2]. split.
    + exact (leb_trans _ _ _ H1 I1).
    + intros v [<- | Hv]; [exact (leb_trans _ _ _ H2 I1) | now apply I2].
Qed.

Lemma Math_min_leb l v :
  existsb is_nan l = false -> In v l -> (Math_min l <=? v) = true.
Proof. intros N. now apply fold_min_step_leb. Qed.

Lemma Math_max_leb l v :
  existsb is_nan l = false -> In v l -> (v <=? Math_max l) = true.
Proof. intros N. now apply fold_max_step_leb. Qed.

Lemma values_between fp pt :
  existsb (fun q => is_nan (value q)) fp = false -> In pt fp ->
  ((Renderer.minValue fp <=? value pt) = true
   /\ (value pt <=? Renderer.maxValue fp) = true)
  /\ ((Renderer.minValue fp <=? 0) = true
      /\ (0 <=? Renderer.maxValue fp) = true).
Proof.
  intros N H. rewrite <- existsb_values in N.
  assert (Hv : In (value pt) (Renderer.allValues fp ++ [0])).
  { apply in_or_app. left. now apply in_map. }
  assert (H0 : In 0 (Renderer.allValues fp ++ [0])).
  { apply in_or_app. right. now left. }
  unfold Renderer.minValue, Renderer.maxValue.
  repeat split; auto using Math_min_leb, Math_max_leb.
Qed.

Lemma abs_within fp pt :
  existsb (fun q => is_nan (value q)) fp = false -> In pt fp ->
  (Math_abs (value pt) <=? Renderer.maxAbsValue fp) = true.
Proof.
  intros N H.
  destruct (values_between fp pt N H) as [[Hm HM] [Hm0 HM0]].
  assert (NA : existsb is_nan
                 [Math_abs (Renderer.minValue fp);
                  Math_abs (Renderer.maxValue fp)] = false).
  { cbn [existsb]. unfold Math_abs. rewrite !abs_not_nan.
    destruct (leb_not_nan _ _ Hm0) as [-> _].
    destruct (leb_not_nan _ _ HM0) as [_ ->]. reflexivity. }
  unfold Renderer.maxAbsValue.
  destruct (leb_not_nan _ _ Hm) as [_ Nv].
  destruct (0 <? value pt) eqn:S.
  - apply leb_trans with (y := Math_abs (Renderer.maxValue fp)).
    + apply abs_leb_nonneg; [now apply ltb_leb | exact HM].
    + apply Math_max_leb; [exact NA | right; now left].
  - apply leb_trans with (y := Math_abs (Renderer.minValue fp)).
    + apply abs_leb_nonpos; [|exact Hm].
      now apply ltb_false_leb.
    + apply Math_max_leb; [exact NA | now left].
Qed.

End BoundFacts.

Section BoundProperties.

Local Open Scope float_scope.

Lemma leb_infinity x : (infinity <=? x) = true -> x = infinity.
Proof.
  rewrite leb_spec. change (Prim2SF infinity) with (S754_infinity false).
  intros H. apply float_of_SF with (f := S754_infinity false).
  by_class x; try discriminate H; reflexivity.
Qed.

Lemma abs_nonfinite x :
  is_nan x = false -> is_finite x = false -> Math_abs x = infinity.
Proof.
  rewrite is_nan_SF, is_finite_SF. intros N F.
  apply float_of_SF with (f := S754_infinity false).
  unfold Math_abs. rewrite abs_spec.
  by_class x; try discriminate; reflexivity.
Qed.

Lemma y_flat pt : is_finite (value pt) = true -> Canvas.y infinity pt = 200.
Proof.
  rewrite is_finite_SF. intros F. unfold Canvas.y.
  assert (E := div_spec (value pt) infinity).
  change (Prim2SF infinity) with (S754_infinity false) in E.
  destruct (Prim2SF (value pt)) as [[|] | [|] | | [|] m e];
    try discriminate F; apply float_of_SF in E; rewrite E; reflexivity.
Qed.

(** When no value of the full path is NaN, every value lies between
    [minValue] and [maxValue], which lie on either side of 0, and its
    absolute value is at most [maxAbsValue]. *)
Theorem values_within_bounds (fp : list BrownianPoint) (pt : BrownianPoint) :
  existsb (fun q => is_nan (value q)) fp = false -> In pt fp ->
  (Renderer.minValue fp <=? value pt) = true
  /\ (value pt <=? Renderer.maxValue fp) = true
  /\ (Renderer.minValue fp <=? 0) = true
  /\ (0 <=? Renderer.maxValue fp) = true
  /\ (Math_abs (value pt) <=? Renderer.maxAbsValue fp) = true.
Proof.
  intros N H.
  destruct (values_between fp pt N H) as [[Hm HM] [Hm0 HM0]].
  repeat split; auto using abs_within.
Qed.

(** When the full path holds an infinite value and no NaN, the range is
    infinite and every finite value is drawn on the line of value 0. *)
Theorem infinite_value_flattens_plot (fp : list BrownianPoint)
    (pt : BrownianPoint) :
  existsb (fun q => is_nan (value q)) fp = false ->
  In pt fp -> is_finite (value pt) = false ->
  Renderer.range fp = infinity
  /\ forall q, is_finite (value q) = true ->
               Canvas.y (Renderer.range fp) q = Canvas.zeroY.
Proof.
  intros N H F.
  assert (Nv : is_nan (value pt) = false).
  { destruct (is_nan (value pt)) eqn:E; [|reflexivity].
    assert (X : existsb (fun q => is_nan (value q)) fp = true)
      by (apply existsb_exists; eauto).
    congruence. }
  assert (A := abs_within fp pt N H).
  rewrite (abs_nonfinite _ Nv F) in A. apply leb_infinity in A.
  assert (R : Renderer.range fp = infinity).
  { unfold Renderer.range. rewrite A. reflexivity. }
  split; [exact R|]. intros q Q. rewrite R. now apply y_flat.
Qed.

End BoundProperties.

Section BoundInstances.

Local Open Scope float_scope.

Let steady : list BrownianPoint :=
  fst (generatePath SampleHost.math SampleHost.draws SampleHost.fiveSteps
         0%nat).

(** With a first draw of 0 every value after the origin is -Infinity. *)
Let flat : list BrownianPoint :=
  fst (generatePath SampleHost.math SampleHost.zeroFirst SampleHost.fiveSteps
         0%nat).

Lemma values_within_bounds_witness :
  (Math_abs (value (sample steady 1)) <=? Renderer.maxAbsValue steady) = true.
Proof.
  refine (proj2 (proj2 (proj2 (proj2
            (values_within_bounds steady (sample steady 1) _ _))))).
  - vm_compute. reflexivity.
  - vm_compute. right. left. reflexivity.
Defined.

Lemma infinite_value_flattens_plot_witness :
  Renderer.range flat = infinity
  /\ Canvas.y (Renderer.range flat) origin = Canvas.zeroY.
Proof.
  destruct (infinite_value_flattens_plot flat (sample flat 1)) as [R Y].
  - vm_compute. reflexivity.
  - vm_compute. right. left. reflexivity.
  - vm_compute. reflexivity.
  - split; [exact R|]. apply Y. reflexivity.
Defined.

Example flat_values :
  map value flat
  = [0; neg_infinity; neg_infinity; neg_infinity; neg_infinity; neg_infinity].
Proof. vm_compute. reflexivity. Qed.

End BoundInstances.
(** * The rounding of products

    What [binary_round_aux] returns for an exact product, read off its
    definition in [SpecFloat]: the shifts divide the mantissa, rounding
    adds at most one to the quotient, and the result is canonical. *)

Module Binary64Round.

Local Open Scope Z_scope.

Lemma fexp_eq e : fexp prec emax e = Z.max (e - 53) (-1074).
Proof. reflexivity. Qed.

Lemma digits2_pos_size p : digits2_pos p = Pos.size p.
Proof. induction p as [p IH|p IH|]; cbn; congruence. Qed.

Lemma Zdigits2_log2 p : Zdigits2 (Zpos p) = Z.log2 (Zpos p) + 1.
Proof.
  cbn [Zdigits2]. rewrite digits2_pos_size.
  destruct p as [p|p|]; cbn [Pos.size Z.log2]; lia.
Qed.

Lemma Zdigits2_bounds p :
  2 ^ (Zdigits2 (Zpos p) - 1) <= Zpos p < 2 ^ Zdigits2 (Zpos p).
Proof.
  rewrite Zdigits2_log2.
  replace (Z.log2 (Zpos p) + 1 - 1) with (Z.log2 (Zpos p)) by lia.
  apply Z.log2_spec. lia.
Qed.

Lemma Zdigits2_unique p k :
  2 ^ (k - 1) <= Zpos p < 2 ^ k -> Zdigits2 (Zpos p) = k.
Proof.
  intros H. rewrite Zdigits2_log2.
  assert (K : 0 < k).
  { destruct (Z.lt_trichotomy k 0) as [N | [N | N]]; [| |exact N].
    - rewrite (Z.pow_neg_r 2 k N) in H. lia.
    - subst k. cbn in H. lia. }
  rewrite (Z.log2_unique (Zpos p) (k - 1)); [lia | lia |].
  now replace (Z.succ (k - 1)) with k by lia.
Qed.

Lemma Zdigits2_pos p : 0 < Zdigits2 (Zpos p).
Proof. cbn. lia. Qed.


(** Right shifts: the mantissa is divided, the round and sticky bits tell
    whether anything was lost. *)

Lemma shr_1_spec mrs :
  0 <= shr_m mrs ->
  shr_m (shr_1 mrs) = shr_m mrs / 2
  /\ inexact (shr_1 mrs) = inexact mrs || Z.odd (shr_m mrs).
Proof.
  destruct mrs as [m r s]. unfold inexact. cbn [shr_m shr_r shr_s]. intros H.
  destruct m as [|[p|p|]|p]; try lia; cbn [shr_1 shr_m shr_r shr_s Z.odd].
  - split; [reflexivity | now rewrite orb_false_r].
  - split; [|now rewrite orb_true_r].
    rewrite (Pos2Z.inj_xI p). apply Z.div_unique with (r := 1); lia.
  - split; [|now rewrite orb_false_r].
    rewrite (Pos2Z.inj_xO p). apply Z.div_unique with (r := 0); lia.
  - split; [reflexivity | now rewrite orb_true_r].
Qed.

Lemma iter_pos_nat {A : Type} (f : A -> A) p : forall x,
  iter_pos f p x = Nat.iter (Pos.to_nat p) f x.
Proof.
  induction p as [p IH|p IH|]; intros x; cbn [iter_pos].
  - rewrite !IH, Pos2Nat.inj_xI, <- Nat.iter_succ_r, <- Nat.iter_add.
    f_equal. lia.
  - rewrite !IH, Pos2Nat.inj_xO, <- Nat.iter_add. f_equal. lia.
  - reflexivity.
Qed.

Lemma mod_pow2_succ m k :
  0 <= m -> 0 <= k ->
  (m mod 2 ^ (k + 1) =? 0) = (m mod 2 ^ k =? 0) && negb (Z.odd (m / 2 ^ k)).
Proof.
  intros Hm Hk.
  assert (P : 0 < 2 ^ k) by (apply Z.pow_pos_nonneg; lia).
  rewrite Z.pow_add_r, Z.pow_1_r by lia.
  rewrite Z.rem_mul_r by lia.
  assert (B := Z.mod_pos_bound m (2 ^ k) P).
  rewrite (Zmod_odd (m / 2 ^ k)).
  destruct (Z.odd (m / 2 ^ k)); cbn [negb].
  - rewrite andb_false_r. apply Z.eqb_neq. lia.
  - rewrite andb_true_r. f_equal. lia.
Qed.

Lemma iter_shr_1_spec k : forall mrs,
  0 <= shr_m mrs ->
  shr_m (Nat.iter k shr_1 mrs) = shr_m mrs / 2 ^ Z.of_nat k
  /\ inexact (Nat.iter k shr_1 mrs)
     = inexact mrs || negb (shr_m mrs mod 2 ^ Z.of_nat k =? 0).
Proof.
  induction k as [|k IH]; intros mrs H.
  - change (Nat.iter 0 shr_1 mrs) with mrs. cbn [Z.of_nat].
    rewrite Z.pow_0_r, Z.div_1_r, Z.mod_1_r.
    now rewrite orb_false_r.
  - rewrite Nat.iter_succ. destruct (IH mrs H) as [Im Ii].
    assert (P : 0 < 2 ^ Z.of_nat k) by (apply Z.pow_pos_nonneg; lia).
    assert (N : 0 <= shr_m (Nat.iter k shr_1 mrs)).
    { rewrite Im. apply Z.div_pos; lia. }
    destruct (shr_1_spec _ N) as [Sm Si].
    rewrite Sm, Si, Im, Ii, Nat2Z.inj_succ, <- Z.add_1_r.
    split.
    + rewrite Z.pow_add_r, Z.pow_1_r by lia.
      apply Z.div_div; lia.
    + rewrite (mod_pow2_succ _ _ H) by lia.
      rewrite negb_andb, negb_involutive, orb_assoc. reflexivity.
Qed.

Lemma shr_spec mrs e n :
  0 <= shr_m mrs -> 0 <= n ->
  snd (shr mrs e n) = e + n
  /\ shr_m (fst (shr mrs e n)) = shr_m mrs / 2 ^ n
  /\ inexact (fst (shr mrs e n))
     = inexact mrs || negb (shr_m mrs mod 2 ^ n =? 0).
Proof.
  intros H Hn. destruct n as [|p|p]; [| |lia]; cbn [shr fst snd].
  - rewrite Z.pow_0_r, Z.div_1_r, Z.mod_1_r, Z.add_0_r.
    now rewrite orb_false_r.
  - rewrite iter_pos_nat.
    destruct (iter_shr_1_spec (Pos.to_nat p) mrs H) as [A B].
    rewrite positive_nat_Z in A, B. auto.
Qed.

Lemma round_nearest_even_spec mrs :
  let m1 := round_nearest_even (shr_m mrs) (loc_of_shr_record mrs) in
  shr_m mrs <= m1 <= shr_m mrs + 1
  /\ (inexact mrs = false -> m1 = shr_m mrs).
Proof.
  destruct mrs as [m [|] [|]]; unfold inexact;
    cbn [shr_m shr_r shr_s loc_of_shr_record round_nearest_even orb];
    try (split; [lia | congruence]).
  destruct (Z.even m); split; first [lia | congruence].
Qed.


Lemma Zdigits2_unique_Z m k :
  0 < m -> 2 ^ (k - 1) <= m < 2 ^ k -> Zdigits2 m = k.
Proof. destruct m as [|p|p]; try lia. intros _. apply Zdigits2_unique. Qed.

Lemma Zdigits2_bounds_Z m :
  0 < m -> 2 ^ (Zdigits2 m - 1) <= m < 2 ^ Zdigits2 m.
Proof. destruct m as [|p|p]; try lia. intros _. apply Zdigits2_bounds. Qed.

Lemma Zdigits2_div m n :
  0 < m -> 0 <= n < Zdigits2 m ->
  0 < m / 2 ^ n /\ Zdigits2 (m / 2 ^ n) = Zdigits2 m - n.
Proof.
  intros Hm Hn. assert (B := Zdigits2_bounds_Z m Hm).
  assert (P : 0 < 2 ^ n) by (apply Z.pow_pos_nonneg; lia).
  assert (L : 2 ^ (Zdigits2 m - n - 1) <= m / 2 ^ n).
  { apply Z.div_le_lower_bound; [exact P|].
    rewrite <- Z.pow_add_r by lia.
    now replace (n + (Zdigits2 m - n - 1)) with (Zdigits2 m - 1) by lia. }
  assert (U : m / 2 ^ n < 2 ^ (Zdigits2 m - n)).
  { apply Z.div_lt_upper_bound; [exact P|].
    rewrite <- Z.pow_add_r by lia.
    now replace (n + (Zdigits2 m - n)) with (Zdigits2 m) by lia. }
  assert (Q : 0 < 2 ^ (Zdigits2 m - n - 1)) by (apply Z.pow_pos_nonneg; lia).
  split; [lia|]. apply Zdigits2_unique_Z; [lia|]. split; [exact L | exact U].
Qed.

(** The digits of a mantissa and of its successor. *)
Lemma Zdigits2_succ m :
  0 < m ->
  Zdigits2 (m + 1) = Zdigits2 m
  \/ (m + 1 = 2 ^ Zdigits2 m /\ Zdigits2 (m + 1) = Zdigits2 m + 1).
Proof.
  intros Hm. assert (B := Zdigits2_bounds_Z m Hm).
  assert (D : 0 < Zdigits2 m) by (destruct m; cbn; lia).
  destruct (Z.eq_dec (m + 1) (2 ^ Zdigits2 m)) as [E | N].
  - right. split; [exact E|]. apply Zdigits2_unique_Z; [lia|].
    replace (Zdigits2 m + 1 - 1) with (Zdigits2 m) by lia.
    rewrite E, Z.pow_add_r, Z.pow_1_r by lia. lia.
  - left. apply Zdigits2_unique_Z; lia.
Qed.

Lemma fexp_mono a b : a <= b -> fexp prec emax a <= fexp prec emax b.
Proof. rewrite !fexp_eq. lia. Qed.

Lemma fexp_succ a : fexp prec emax (a + 1) <= fexp prec emax a + 1.
Proof. rewrite !fexp_eq. lia. Qed.

(** The second shift of [binary_round_aux]: a mantissa that is canonical
    at its exponent, or the power of two above one that is. *)
Lemma renormalize m1 e1 d :
  0 < m1 ->
  fexp prec emax (d + e1) = e1 ->
  Zdigits2 m1 = d \/ (m1 = 2 ^ d /\ Zdigits2 m1 = d + 1 /\ 0 < d) ->
  let r := shr_fexp prec emax m1 e1 loc_Exact in
  exists m2 : positive,
    shr_m (fst r) = Zpos m2
    /\ canonical_mantissa prec emax m2 (snd r) = true
    /\ e1 <= snd r
    /\ Zpos m2 * 2 ^ (snd r - e1) = m1.
Proof.
  intros Hm He Hd. cbv zeta. unfold shr_fexp.
  change (shr_record_of_loc m1 loc_Exact)
    with {| shr_m := m1; shr_r := false; shr_s := false |}.
  set (n2 := fexp prec emax (Zdigits2 m1 + e1) - e1).
  assert (Hn : n2 = 0 \/ (n2 = 1 /\ m1 = 2 ^ d /\ Zdigits2 m1 = d + 1 /\ 0 < d)).
  { unfold n2. destruct Hd as [-> | (Em & Ed & Pd)]; [left; lia|].
    rewrite Ed. replace (d + 1 + e1) with (d + e1 + 1) by lia.
    assert (A := fexp_succ (d + e1)).
    assert (B := fexp_mono (d + e1) (d + e1 + 1)).
    destruct (Z.eq_dec (fexp prec emax (d + e1 + 1)) e1) as [Q | Q];
      [left; lia | right]. repeat split; try assumption. lia. }
  assert (N0 : 0 <= n2) by lia.
  destruct (shr_spec {| shr_m := m1; shr_r := false; shr_s := false |}
              e1 n2 (Z.lt_le_incl _ _ Hm) N0) as (S1 & S2 & _).
  cbn [shr_m] in S2.
  assert (V : shr_m (fst (shr {| shr_m := m1; shr_r := false; shr_s := false |}
                            e1 n2)) * 2 ^ n2 = m1
              /\ Zdigits2 (shr_m (fst (shr {| shr_m := m1; shr_r := false;
                                              shr_s := false |} e1 n2)))
                 = Zdigits2 m1 - n2
              /\ 0 < shr_m (fst (shr {| shr_m := m1; shr_r := false;
                                        shr_s := false |} e1 n2))).
  { rewrite S2. destruct Hn as [-> | (-> & Em & Ed & Pd)].
    - rewrite Z.pow_0_r, Z.div_1_r. lia.
    - assert (P : 0 < 2 ^ (d - 1)) by (apply Z.pow_pos_nonneg; lia).
      assert (T : 2 ^ d = 2 ^ (d - 1) * 2).
      { replace d with (d - 1 + 1) at 1 by lia.
        now rewrite Z.pow_add_r, Z.pow_1_r by lia. }
      assert (Q : m1 / 2 ^ 1 = 2 ^ (d - 1)).
      { rewrite Em, Z.pow_1_r, T. apply Z.div_mul. lia. }
      rewrite Q, Ed, Z.pow_1_r, Em.
      split; [lia|]. split; [|exact P].
      replace (d + 1 - 1) with d by lia.
      apply Zdigits2_unique_Z; [exact P|]. split; [|lia].
      apply Z.pow_le_mono_r; lia. }
  destruct V as (V1 & V2 & V3). rewrite S1.
  destruct (shr_m (fst (shr {| shr_m := m1; shr_r := false; shr_s := false |}
                          e1 n2))) as [|m2|m2] eqn:Em2; try lia.
  exists m2. split; [reflexivity|]. split; [|split; [lia|]].
  - unfold canonical_mantissa. apply Z.eqb_eq.
    change (Zpos (digits2_pos m2)) with (Zdigits2 (Zpos m2)).
    rewrite V2. unfold n2.
    replace (Zdigits2 m1 - (fexp prec emax (Zdigits2 m1 + e1) - e1)
             + (e1 + (fexp prec emax (Zdigits2 m1 + e1) - e1)))
      with (Zdigits2 m1 + e1) by lia.
    lia.
  - replace (e1 + n2 - e1) with n2 by lia. exact V1.
Qed.


(** Rounding an exact product [M * 2^E] that is not below the smallest
    positive double: the result is the canonical double of value
    [m1 * 2^e1], or the infinity when that exponent is above the largest,
    where [e1] is the exponent of the format at [M * 2^E] and [m1] is
    [M / 2^(e1 - E)] rounded down or up, and the quotient itself when the
    division is exact. *)
Lemma binary_round_aux_exact sx (M : positive) (E : Z) :
  let D := Zdigits2 (Zpos M) in
  let e1 := fexp prec emax (D + E) in
  E <= e1 -> -1074 < D + E ->
  exists (m1 : Z) (m2 : positive) (e2 : Z),
    binary_round_aux prec emax sx (Zpos M) E loc_Exact
    = (if e2 <=? emax - prec then S754_finite sx m2 e2 else S754_infinity sx)
    /\ canonical_mantissa prec emax m2 e2 = true
    /\ e1 <= e2
    /\ Zpos m2 * 2 ^ (e2 - e1) = m1
    /\ Zpos M / 2 ^ (e1 - E) <= m1 <= Zpos M / 2 ^ (e1 - E) + 1
    /\ (Zpos M mod 2 ^ (e1 - E) = 0 -> m1 = Zpos M / 2 ^ (e1 - E)).
Proof.
  intros D e1 H1 H2.
  assert (Ee : e1 = Z.max (D + E - 53) (-1074)) by apply fexp_eq.
  assert (Hn : 0 <= e1 - E < D) by lia.
  unfold binary_round_aux.
  set (r1 := shr_fexp prec emax (Zpos M) E loc_Exact).
  assert (R1 : snd r1 = e1
               /\ shr_m (fst r1) = Zpos M / 2 ^ (e1 - E)
               /\ inexact (fst r1) = negb (Zpos M mod 2 ^ (e1 - E) =? 0)).
  { unfold r1, shr_fexp. fold D. fold e1.
    change (shr_record_of_loc (Zpos M) loc_Exact)
      with {| shr_m := Zpos M; shr_r := false; shr_s := false |}.
    destruct (shr_spec {| shr_m := Zpos M; shr_r := false; shr_s := false |}
                E (e1 - E)) as (S1 & S2 & S3); [cbn; lia | lia |].
    rewrite S1, S2, S3. split; [lia|]. split; reflexivity. }
  destruct r1 as [mrs' e']. cbn [fst snd] in R1.
  destruct R1 as (-> & Rm & Ri).
  destruct (Zdigits2_div (Zpos M) (e1 - E)) as [Qp Qd]; [lia | exact Hn |].
  fold D in Qd.
  destruct (round_nearest_even_spec mrs') as [Rb Re].
  set (m1 := round_nearest_even (shr_m mrs') (loc_of_shr_record mrs')) in *.
  rewrite Rm in Rb, Re.
  assert (P1 : 0 < m1) by lia.
  assert (Hd : Zdigits2 m1 = D - (e1 - E)
               \/ (m1 = 2 ^ (D - (e1 - E))
                   /\ Zdigits2 m1 = D - (e1 - E) + 1
                   /\ 0 < D - (e1 - E))).
  { destruct (Z.eq_dec m1 (Zpos M / 2 ^ (e1 - E))) as [-> | N];
      [left; exact Qd|].
    assert (E1 : m1 = Zpos M / 2 ^ (e1 - E) + 1) by lia.
    rewrite E1, <- Qd.
    destruct (Zdigits2_succ _ Qp) as [S | [S1 S2]]; [left; exact S | right].
    split; [exact S1|]. split; [exact S2|]. lia. }
  assert (He : fexp prec emax (D - (e1 - E) + e1) = e1).
  { replace (D - (e1 - E) + e1) with (D + E) by lia. reflexivity. }
  destruct (renormalize m1 e1 (D - (e1 - E)) P1 He Hd)
    as (m2 & S1 & S2 & S3 & S4).
  destruct (shr_fexp prec emax m1 e1 loc_Exact) as [mrs'' e''].
  cbn [fst snd] in S1, S2, S3, S4.
  exists m1, m2, e''. rewrite S1.
  split; [reflexivity|]. split; [exact S2|]. split; [exact S3|].
  split; [exact S4|]. split; [exact Rb|].
  intros Z0. apply Re. rewrite Ri, Z0. reflexivity.
Qed.


Lemma binary_round_aux_canonical sx m e :
  canonical_mantissa prec emax m e = true -> e <= emax - prec ->
  binary_round_aux prec emax sx (Zpos m) e loc_Exact = S754_finite sx m e.
Proof.
  intros C L. unfold canonical_mantissa in C. apply Z.eqb_eq in C.
  unfold binary_round_aux, shr_fexp.
  change (Zdigits2 (Zpos m)) with (Zpos (digits2_pos m)).
  rewrite C, Z.sub_diag. cbn [shr_record_of_loc shr shr_m loc_of_shr_record
                               round_nearest_even].
  change (Zdigits2 (Zpos m)) with (Zpos (digits2_pos m)).
  rewrite C, Z.sub_diag. cbn [shr shr_m].
  apply Z.leb_le in L. now rewrite L.
Qed.

(** A canonical mantissa has at most 53 digits, and exactly 53 above the
    smallest exponent. *)
Lemma canonical_digits m e :
  canonical_mantissa prec emax m e = true ->
  Zdigits2 (Zpos m) <= 53
  /\ -1074 <= e
  /\ (-1074 < e -> Zdigits2 (Zpos m) = 53).
Proof.
  unfold canonical_mantissa. intros C. apply Z.eqb_eq in C.
  rewrite fexp_eq in C.
  change (Zpos (digits2_pos m)) with (Zdigits2 (Zpos m)) in C. lia.
Qed.

(** Canonical doubles are ordered as their values are. *)
Lemma canonical_compare m1 e1 m2 e2 c :
  canonical_mantissa prec emax m1 e1 = true ->
  canonical_mantissa prec emax m2 e2 = true ->
  c <= e1 -> c <= e2 ->
  Zpos m1 * 2 ^ (e1 - c) < Zpos m2 * 2 ^ (e2 - c) ->
  e1 <= e2
  /\ SFltb (S754_finite false m1 e1) (S754_finite false m2 e2) = true.
Proof.
  intros C1 C2 L1 L2 H.
  destruct (canonical_digits m1 e1 C1) as (D1 & N1 & F1).
  destruct (canonical_digits m2 e2 C2) as (D2 & N2 & F2).
  assert (B1 := Zdigits2_bounds m1). assert (B2 := Zdigits2_bounds m2).
  assert (P2 : 0 < 2 ^ (e2 - c)) by (apply Z.pow_pos_nonneg; lia).
  assert (Le : e1 <= e2).
  { destruct (Z.le_gt_cases e1 e2) as [Le | Gt]; [exact Le | exfalso].
    rewrite F1 in B1 by lia.
    assert (U : Zpos m2 < 2 ^ 53).
    { apply Z.lt_le_trans with (1 := proj2 B2).
      apply Z.pow_le_mono_r; lia. }
    assert (S : 2 ^ (e1 - c) = 2 ^ (e1 - e2) * 2 ^ (e2 - c)).
    { rewrite <- Z.pow_add_r by lia. f_equal. lia. }
    assert (T : 2 ^ 1 <= 2 ^ (e1 - e2)) by (apply Z.pow_le_mono_r; lia).
    rewrite S in H. change (2 ^ (53 - 1)) with 4503599627370496 in B1.
    change (2 ^ 53) with 9007199254740992 in U.
    change (2 ^ 1) with 2 in T. nia. }
  split; [exact Le|].
  unfold SFltb. cbn [SFcompare].
  destruct (Z.compare_spec e1 e2) as [E | E | E]; [|reflexivity|lia].
  subst e2. change (Pos.compare_cont Eq m1 m2) with (Pos.compare m1 m2).
  assert (Lt : (m1 < m2)%positive).
  { apply Pos2Z.pos_lt_pos. nia. }
  rewrite (proj2 (Pos.compare_lt_iff m1 m2) Lt). reflexivity.
Qed.

Lemma Zdigits2_mono a b : 0 < a <= b -> Zdigits2 a <= Zdigits2 b.
Proof.
  intros H. destruct a as [|p|p], b as [|q|q]; try lia.
  rewrite !Zdigits2_log2.
  assert (L := Z.log2_le_mono (Zpos p) (Zpos q)). lia.
Qed.

Lemma Zdigits2_mul_pow2 a k :
  0 < a -> 0 <= k -> Zdigits2 (a * 2 ^ k) = Zdigits2 a + k.
Proof.
  intros Ha Hk. assert (B := Zdigits2_bounds_Z a Ha).
  assert (D : 0 < Zdigits2 a) by (destruct a; cbn; lia).
  assert (P : 0 < 2 ^ k) by (apply Z.pow_pos_nonneg; lia).
  apply Zdigits2_unique_Z; [nia|].
  replace (Zdigits2 a + k - 1) with (Zdigits2 a - 1 + k) by lia.
  rewrite !Z.pow_add_r by lia. nia.
Qed.

Lemma Zdigits2_below a k : 0 < a < 2 ^ k -> Zdigits2 a <= k.
Proof.
  intros H. assert (B := Zdigits2_bounds_Z a (proj1 H)).
  destruct (Z.le_gt_cases (Zdigits2 a) k) as [L | G]; [exact L | exfalso].
  assert (K : 0 <= k).
  { destruct (Z.le_gt_cases 0 k) as [K | K]; [exact K|].
    rewrite (Z.pow_neg_r 2 k K) in H. lia. }
  assert (T : 2 ^ k <= 2 ^ (Zdigits2 a - 1)) by (apply Z.pow_le_mono_r; lia).
  lia.
Qed.

Lemma Pos_iter_xO p k : Zpos (Pos.iter xO p k) = Zpos p * 2 ^ Zpos k.
Proof.
  rewrite <- Z.shiftl_mul_pow2 by lia. cbn [Z.shiftl].
  apply (Pos.iter_swap_gen _ _ Zpos xO (Z.mul 2)). reflexivity.
Qed.

End Binary64Round.

Import Binary64Round.

(** * The times of the samples *)

Module Binary64Times.

Local Open Scope Z_scope.

(** The double of a counter below 2^53: its mantissa has 53 digits and its
    value is the counter. *)
Lemma of_nat_SF (i : nat) :
  0 < Z.of_nat i < 2 ^ 53 ->
  exists mn en,
    Prim2SF (of_nat i) = S754_finite false mn en
    /\ -52 <= en <= 0
    /\ Zpos mn = Z.of_nat i * 2 ^ (- en).
Proof.
  intros H. unfold of_nat.
  rewrite of_uint63_spec, Uint63.of_Z_spec.
  rewrite Z.mod_small
    by (change wB with (2 ^ 63); split; [lia|];
        apply Z.lt_trans with (1 := proj2 H); reflexivity).
  destruct (Z.of_nat i) as [|p|p]; try lia.
  cbn [binary_normalize]. unfold binary_round.
  assert (B := Zdigits2_bounds p).
  assert (D : 0 < Zdigits2 (Zpos p) <= 53).
  { split; [apply Zdigits2_pos | apply Zdigits2_below; lia]. }
  change (Zpos (digits2_pos p)) with (Zdigits2 (Zpos p)).
  rewrite Z.add_0_r, fexp_eq.
  replace (Z.max (Zdigits2 (Zpos p) - 53) (-1074))
    with (Zdigits2 (Zpos p) - 53) by lia.
  unfold shl_align. rewrite Z.sub_0_r.
  destruct (Zdigits2 (Zpos p) - 53) as [|k|k] eqn:K; try lia.
  - exists p, 0. split; [|split; [lia | cbn; lia]].
    apply binary_round_aux_canonical; [|cbn; lia].
    unfold canonical_mantissa. apply Z.eqb_eq. rewrite fexp_eq.
    change (Zpos (digits2_pos p)) with (Zdigits2 (Zpos p)). lia.
  - exists (Pos.iter xO p k), (Zneg k). split; [|split; [lia|]].
    + apply binary_round_aux_canonical; [|cbn; lia].
      unfold canonical_mantissa. apply Z.eqb_eq. rewrite fexp_eq.
      change (Zpos (digits2_pos (Pos.iter xO p k)))
        with (Zdigits2 (Zpos (Pos.iter xO p k))).
      rewrite Pos_iter_xO, Zdigits2_mul_pow2 by lia. lia.
    + rewrite Pos_iter_xO. reflexivity.
Qed.


(** The product of a counter and a positive double [md * 2^ed], in units of
    [2^ed]: the product [A] of the counter and the mantissa, up to the bits
    below the exponent of the format at [A]. *)
Lemma mul_of_nat_SF (i : nat) (dt : float) md ed :
  0 < Z.of_nat i < 2 ^ 53 ->
  Prim2SF dt = S754_finite false md ed ->
  let A := Z.of_nat i * Zpos md in
  let t := fexp prec emax (Zdigits2 A + ed) - ed in
  exists m2 e2,
    Prim2SF (of_nat i * dt)
    = (if e2 <=? emax - prec then S754_finite false m2 e2
       else S754_infinity false)
    /\ canonical_mantissa prec emax m2 e2 = true
    /\ ed <= e2
    /\ 0 <= t
    /\ A - (2 ^ t - 1) <= Zpos m2 * 2 ^ (e2 - ed) <= A + (2 ^ t - 1).
Proof.
  intros Hi Hdt A t.
  destruct (of_nat_SF i Hi) as (mn & en & En & Ben & Vn).
  assert (Vd := Prim2SF_valid dt). rewrite Hdt in Vd.
  cbn [valid_binary] in Vd. unfold bounded in Vd.
  apply andb_prop in Vd. destruct Vd as [Cd _].
  destruct (canonical_digits md ed Cd) as (Dd & Nd & Fd).
  assert (Ed : fexp prec emax (Zdigits2 (Zpos md) + ed) = ed).
  { unfold canonical_mantissa in Cd. now apply Z.eqb_eq in Cd. }
  rewrite mul_spec, En, Hdt. unfold SF64mul. cbn [SFmul xorb].
  set (k := - en) in *.
  assert (Pk : 0 < 2 ^ k) by (apply Z.pow_pos_nonneg; lia).
  assert (PA : 0 < A) by (unfold A; nia).
  assert (EM : Zpos (mn * md) = A * 2 ^ k).
  { rewrite Pos2Z.inj_mul, Vn. unfold A. ring. }
  assert (DM : Zdigits2 (Zpos (mn * md)) = Zdigits2 A + k).
  { rewrite EM. apply Zdigits2_mul_pow2; lia. }
  assert (DA : Zdigits2 (Zpos md) <= Zdigits2 A).
  { apply Zdigits2_mono. unfold A. nia. }
  assert (D1 : 0 < Zdigits2 (Zpos md)) by apply Zdigits2_pos.
  set (e1 := fexp prec emax (Zdigits2 A + ed)).
  assert (Et : t = e1 - ed) by reflexivity.
  assert (T0 : 0 <= t).
  { assert (Mo := fexp_mono (Zdigits2 (Zpos md) + ed) (Zdigits2 A + ed)).
    fold e1 in Mo. lia. }
  assert (RA := binary_round_aux_exact false (mn * md) (en + ed)).
  cbv zeta in RA. rewrite DM in RA.
  replace (Zdigits2 A + k + (en + ed)) with (Zdigits2 A + ed) in RA
    by (unfold k; lia).
  fold e1 in RA.
  replace (e1 - (en + ed)) with (t + k) in RA by (unfold k; lia).
  destruct RA as (m1 & m2 & e2 & R & C2 & L2 & V2 & Q2 & X2);
    [unfold k in *; lia | lia |].
  assert (Pt : 0 < 2 ^ t) by (apply Z.pow_pos_nonneg; lia).
  assert (Q : Zpos (mn * md) / 2 ^ (t + k) = A / 2 ^ t).
  { rewrite EM, Z.pow_add_r by lia. apply Z.div_mul_cancel_r; lia. }
  assert (X : A mod 2 ^ t = 0 -> Zpos (mn * md) mod 2 ^ (t + k) = 0).
  { intros Z0. rewrite EM, Z.pow_add_r by lia.
    rewrite Z.mul_mod_distr_r by lia. rewrite Z0. reflexivity. }
  rewrite Q in Q2, X2.
  exists m2, e2. split; [exact R|]. split; [exact C2|].
  split; [lia|]. split; [exact T0|].
  assert (W : Zpos m2 * 2 ^ (e2 - ed) = m1 * 2 ^ t).
  { replace (e2 - ed) with (e2 - e1 + t) by lia.
    rewrite Z.pow_add_r by lia. rewrite <- V2. ring. }
  rewrite W.
  assert (DMo := Z.div_mod A (2 ^ t)).
  assert (Bo := Z.mod_pos_bound A (2 ^ t) Pt).
  destruct (Z.eq_dec (A mod 2 ^ t) 0) as [Z0 | N0].
  - rewrite (X2 (X Z0)). nia.
  - nia.
Qed.


Local Open Scope float_scope.

(** Two consecutive multiples of a positive finite double: the second is
    above the first unless both are infinite. *)
Lemma consecutive_multiples (i : nat) (dt : float) md ed :
  (0 < Z.of_nat i)%Z -> (Z.of_nat i + 1 <= 2 ^ 32)%Z ->
  Prim2SF dt = S754_finite false md ed ->
  (is_finite (of_nat (S i) * dt) = true -> is_finite (of_nat i * dt) = true)
  /\ (is_finite (of_nat i * dt) = true ->
      (of_nat i * dt <? of_nat (S i) * dt) = true).
Proof.
  intros Hi Hb Hdt.
  assert (Hi' : (0 < Z.of_nat i < 2 ^ 53)%Z).
  { split; [exact Hi|]. apply Z.lt_le_trans with (2 ^ 32 + 1)%Z; [lia|].
    vm_compute. discriminate. }
  assert (Hs : (0 < Z.of_nat (S i) < 2 ^ 53)%Z).
  { rewrite Nat2Z.inj_succ. split; [lia|].
    apply Z.le_lt_trans with (2 ^ 32)%Z; [lia | reflexivity]. }
  destruct (mul_of_nat_SF i dt md ed Hi' Hdt)
    as (mA & eA & RA & CA & LA & TA & VA).
  destruct (mul_of_nat_SF (S i) dt md ed Hs Hdt)
    as (mB & eB & RB & CB & LB & TB & VB).
  rewrite Nat2Z.inj_succ in TB, VB.
  set (A := (Z.of_nat i * Zpos md)%Z) in *.
  set (B := (Z.succ (Z.of_nat i) * Zpos md)%Z) in *.
  assert (EB : B = (A + Zpos md)%Z) by (unfold A, B; lia).
  set (tA := (fexp prec emax (Zdigits2 A + ed) - ed)%Z) in *.
  set (tB := (fexp prec emax (Zdigits2 B + ed) - ed)%Z) in *.
  assert (Vd := Prim2SF_valid dt). rewrite Hdt in Vd.
  cbn [valid_binary] in Vd. unfold bounded in Vd.
  apply andb_prop in Vd. destruct Vd as [Cd _].
  destruct (canonical_digits md ed Cd) as (Dd & Nd & Fd).
  assert (Bd := Zdigits2_bounds md).
  assert (D1 : (0 < Zdigits2 (Zpos md))%Z) by apply Zdigits2_pos.
  assert (PA : (0 < A)%Z) by (unfold A; nia).
  assert (DA : (Zdigits2 (Zpos md) <= Zdigits2 A)%Z).
  { apply Zdigits2_mono. unfold A. nia. }
  assert (DAB : (Zdigits2 A <= Zdigits2 B)%Z).
  { apply Zdigits2_mono. lia. }
  assert (DB : (Zdigits2 B <= Zdigits2 (Zpos md) + 32)%Z).
  { apply Zdigits2_below. split; [lia|].
    rewrite Z.pow_add_r by lia. unfold B. nia. }
  assert (ETA : tA = Z.max (Zdigits2 A - 53) 0).
  { unfold tA. rewrite fexp_eq. lia. }
  assert (ETB : tB = Z.max (Zdigits2 B - 53) 0).
  { unfold tB. rewrite fexp_eq. lia. }
  assert (S2 : (2 ^ tA + 2 ^ tB <= Zpos md + 1)%Z).
  { assert (Mo : (2 ^ tA <= 2 ^ tB)%Z) by (apply Z.pow_le_mono_r; lia).
    destruct (Z.le_gt_cases (Zdigits2 B) 53) as [Sm | La].
    - replace tB with 0%Z in * by lia. replace tA with 0%Z in * by lia.
      cbn. lia.
    - assert (U : (2 ^ tB <= 2 ^ (Zdigits2 (Zpos md) - 21))%Z)
        by (apply Z.pow_le_mono_r; lia).
      assert (P : (0 < 2 ^ (Zdigits2 (Zpos md) - 21))%Z)
        by (apply Z.pow_pos_nonneg; lia).
      assert (Sp : (2 ^ (Zdigits2 (Zpos md) - 1)
                    = 2 ^ (Zdigits2 (Zpos md) - 21) * 2 ^ 20)%Z).
      { rewrite <- Z.pow_add_r by lia. f_equal. lia. }
      rewrite Sp in Bd. change (2 ^ 20)%Z with 1048576%Z in Bd. lia. }
  assert (W : (Zpos mA * 2 ^ (eA - ed) < Zpos mB * 2 ^ (eB - ed))%Z) by lia.
  destruct (canonical_compare mA eA mB eB ed CA CB LA LB W) as [Le Lt].
  rewrite !Binary64.is_finite_SF, ltb_spec, RA, RB.
  change (emax - prec)%Z with 971%Z.
  destruct (Z.leb_spec eA 971), (Z.leb_spec eB 971);
    cbn [SFfinite]; try lia; split; try congruence; intros _;
    first [exact Lt | reflexivity].
Qed.

(** A multiple of a positive double by a positive counter is positive. *)
Lemma multiple_positive (i : nat) (dt : float) :
  (0 < Z.of_nat i < 2 ^ 53)%Z ->
  (0 <? dt) = true -> (0 <? of_nat i * dt) = true.
Proof.
  intros Hi. rewrite !ltb_spec.
  change (Prim2SF 0) with (S754_zero false).
  destruct (Prim2SF dt) as [s | [|] | | [|] md ed] eqn:Hdt;
    try discriminate; intros _.
  - destruct (of_nat_SF i Hi) as (mn & en & En & _).
    rewrite mul_spec, En, Hdt. reflexivity.
  - destruct (mul_of_nat_SF i dt md ed Hi Hdt) as (m2 & e2 & R & _).
    rewrite R. now destruct (e2 <=? emax - prec)%Z.
Qed.

End Binary64Times.

Import Binary64Times.

Section TimeFacts.

Local Open Scope float_scope.

Lemma binary_round_aux_negative mx ex lx :
  (0 <= mx)%Z ->
  SFltb (S754_zero false) (binary_round_aux prec emax true mx ex lx) = false.
Proof.
  intros H. unfold binary_round_aux.
  assert (H1 := shr_fexp_nonneg mx ex lx H).
  destruct (shr_fexp prec emax mx ex lx) as [mrs' e'].
  cbn [fst] in H1.
  assert (H2 : (0 <= round_nearest_even (shr_m mrs') (loc_of_shr_record mrs'))%Z).
  { unfold round_nearest_even.
    destruct (loc_of_shr_record mrs') as [|[| |]]; try lia.
    destruct (Z.even _); lia. }
  assert (H3 := shr_fexp_nonneg _ e' loc_Exact H2).
  destruct (shr_fexp prec emax _ e' loc_Exact) as [mrs'' e''].
  cbn [fst] in H3.
  destruct (shr_m mrs''); [reflexivity | | lia].
  destruct (Z.leb _ _); reflexivity.
Qed.

Lemma first_multiple_positive dt :
  (0 <? of_nat 1 * dt) = true -> (0 <? dt) = true.
Proof.
  destruct (of_nat_SF 1) as (mn & en & En & _); [split; reflexivity|].
  rewrite !ltb_spec, mul_spec, En.
  change (Prim2SF 0) with (S754_zero false).
  destruct (Prim2SF dt) as [[|] | [|] | | [|] md ed];
    cbn [SF64mul SFmul xorb]; try discriminate; try reflexivity.
  unfold SF64mul. cbn [SFmul xorb].
  rewrite binary_round_aux_negative by lia. discriminate.
Qed.

Lemma multiple_of_infinity (i : nat) dt :
  (0 < Z.of_nat i < 2 ^ 53)%Z -> Prim2SF dt = S754_infinity false ->
  is_finite (of_nat i * dt) = false.
Proof.
  intros Hi Hdt. destruct (of_nat_SF i Hi) as (mn & en & En & _).
  rewrite is_finite_SF, mul_spec, En, Hdt. reflexivity.
Qed.

Lemma between_is_finite x y :
  (0 <? x) = true -> (x <? y) = true -> is_finite x = true.
Proof.
  rewrite is_finite_SF, !ltb_spec. change (Prim2SF 0) with (S754_zero false).
  destruct (Prim2SF x) as [[|] | [|] | | [|] m e],
           (Prim2SF y) as [[|] | [|] | | [|] m' e']; cbn; congruence.
Qed.

Lemma increasing_cons2 t t' l :
  increasing (t :: t' :: l) = (t <? t') && increasing (t' :: l).
Proof. reflexivity. Qed.

(** The decision [increasing], over the values of a function. *)
Lemma increasing_map_seq (T : nat -> float) k : forall a,
  increasing (map T (seq a (S k)))
  = forallb (fun j => T j <? T (S j)) (seq a k).
Proof.
  induction k as [|k IH]; intros a; [reflexivity|].
  change (map T (seq a (S (S k))))
    with (T a :: T (S a) :: map T (seq (S (S a)) k)).
  rewrite increasing_cons2.
  change (T (S a) :: map T (seq (S (S a)) k)) with (map T (seq (S a) (S k))).
  rewrite IH. reflexivity.
Qed.

Lemma increasing_head t l :
  increasing (t :: l) = true -> forall x, In x l -> (t <? x) = true.
Proof.
  revert t. induction l as [|t' l IH]; intros t H x Hin; [destruct Hin|].
  cbn [increasing] in H. apply andb_prop in H. destruct H as [H1 H2].
  destruct Hin as [<- | Hin]; [exact H1|].
  apply ltb_trans with (y := t'); [exact H1|]. now apply IH.
Qed.

Lemma increasing_tail t l : increasing (t :: l) = true -> increasing l = true.
Proof.
  destruct l as [|t' l]; [reflexivity|]. cbn [increasing].
  intros H. now apply andb_prop in H.
Qed.

Lemma increasing_pairs l : increasing l = true ->
  forall i j d, (i < j < length l)%nat -> (nth i l d <? nth j l d) = true.
Proof.
  induction l as [|t l IH]; intros H i j d Hij; cbn [length] in Hij; [lia|].
  destruct j as [|j]; [lia|]. destruct i as [|i]; cbn [nth].
  - apply (increasing_head t l H). apply nth_In. lia.
  - apply IH; [now apply increasing_tail in H | lia].
Qed.

(** The times [0, 1 * dt, ..., n * dt] of [n >= 1] steps, [n] at most
    2^32, are strictly increasing exactly when [dt] is positive and the
    time before the last is finite. *)
Lemma times_increasing (k : nat) (dt : float) :
  (Z.of_nat (S k) <= 2 ^ 32)%Z ->
  increasing (0 :: map (fun j => of_nat j * dt) (seq 1 (S k)))
  = (0 <? dt)
    && is_finite (match k with O => 0 | S _ => of_nat k * dt end).
Proof.
  intros Hb.
  assert (B53 : forall j : nat,
             (1 <= j <= S k)%nat -> (0 < Z.of_nat j < 2 ^ 53)%Z).
  { intros j Hj. split; [lia|].
    apply Z.le_lt_trans with (2 ^ 32)%Z; [lia | reflexivity]. }
  set (T := fun j : nat => of_nat j * dt).
  change (map T (seq 1 (S k))) with (T 1%nat :: map T (seq 2 k)).
  rewrite increasing_cons2.
  change (T 1%nat :: map T (seq 2 k)) with (map T (seq 1 (S k))).
  rewrite increasing_map_seq.
  change (T 1%nat) with (of_nat 1 * dt).
  destruct (0 <? dt) eqn:Pdt; cbn [andb].
  - rewrite (multiple_positive 1 dt) by (try apply B53; auto; lia).
    cbn [andb].
    destruct k as [|k]; [reflexivity|].
    destruct (is_finite (of_nat (S k) * dt)) eqn:F.
    + apply forallb_forall. intros j Hj. apply in_seq in Hj. unfold T.
      assert (Pd := Pdt). rewrite ltb_spec in Pd.
      change (Prim2SF 0) with (S754_zero false) in Pd.
      destruct (Prim2SF dt) as [s | [|] | | [|] md ed] eqn:Hdt;
        try discriminate Pd.
      { rewrite (multiple_of_infinity (S k) dt) in F
          by (try apply B53; auto; lia). discriminate F. }
      assert (Fj : forall m, (m <= S k)%nat -> (1 <= m)%nat ->
                   forall j', (1 <= j' <= m)%nat ->
                   is_finite (of_nat m * dt) = true ->
                   is_finite (of_nat j' * dt) = true).
      { induction m as [|m IHm]; intros Hm H1 j' Hj' Fm; [lia|].
        destruct (Nat.eq_dec j' (S m)) as [-> | Ne]; [exact Fm|].
        apply IHm; try lia.
        apply (consecutive_multiples m dt md ed); try lia; try exact Hdt.
        exact Fm. }
      apply (consecutive_multiples j dt md ed); try lia; try exact Hdt.
      apply (Fj (S k)); try lia. exact F.
    + apply not_true_is_false. intros H.
      rewrite forallb_forall in H.
      assert (Hk := H (S k)). unfold T in Hk.
      rewrite (between_is_finite (of_nat (S k) * dt) (of_nat (S (S k)) * dt))
        in F; [discriminate F | |].
      * apply multiple_positive; [apply B53; lia | exact Pdt].
      * apply Hk. apply in_seq. lia.
  - destruct (0 <? of_nat 1 * dt) eqn:P1; [|reflexivity].
    apply first_multiple_positive in P1. congruence.
Qed.

End TimeFacts.

Section TimeClaims.

Variable M : MathLib.
Variable u : nat -> float.

Local Open Scope float_scope.

(** C1 (as amended): for every step count [steps > 0] and every interval
    length, [generatePath] returns exactly [steps + 1] samples, the first
    is [{time: 0, value: 0}], and the time of sample [i], for [i] from 1 to
    [steps], is the double [i * dt] with [dt = intervalLength / steps].
    For at most 2^32 steps these times are strictly increasing if and only
    if [dt] is positive and the time before the last is finite: they are
    not when [dt] has rounded to 0, is NaN or is negative, nor when two
    times are infinite. *)
Theorem generatePath_shape (p : Params) (c : nat) :
  (0 < steps p)%Z ->
  let fp := fst (generatePath M u p c) in
  let n := Z.to_nat (steps p) in
  let dt := intervalLength p / of_Z (steps p) in
  Z.of_nat (length fp) = (steps p + 1)%Z
  /\ sample fp 0 = {| time := 0; value := 0 |}
  /\ (forall i, (1 <= i <= n)%nat -> time (sample fp i) = of_nat i * dt)
  /\ ((steps p <= 2 ^ 32)%Z ->
      increasing (map time fp)
      = (0 <? dt) && is_finite (time (sample fp (n - 1)))
      /\ (increasing (map time fp) = true ->
          forall i j, (i < j <= n)%nat ->
                      (time (sample fp i) <? time (sample fp j)) = true)).
Proof.
  intros Hs. cbv zeta.
  split; [rewrite generatePath_length; lia|].
  split; [apply generatePath_origin|].
  split; [apply generatePath_time|].
  intros Hb. split.
  - rewrite generatePath_times.
    destruct (Z.to_nat (steps p)) as [|k] eqn:K; [lia|].
    rewrite times_increasing by lia.
    replace (S k - 1)%nat with k by lia. f_equal. f_equal.
    destruct k as [|k]; [now rewrite generatePath_origin|].
    rewrite generatePath_time by lia. reflexivity.
  - intros I i j Hij.
    assert (P := increasing_pairs _ I i j nan).
    rewrite length_map, generatePath_length in P.
    change nan with (time {| time := nan; value := nan |}) in P.
    rewrite !map_nth in P. apply P. lia.
Qed.

End TimeClaims.

Section TimeInstances.

Local Open Scope float_scope.

Lemma generatePath_shape_witness :
  let fp :=
    fst (generatePath SampleHost.math SampleHost.draws SampleHost.fiveSteps 0%nat) in
  Z.of_nat (length fp) = 6%Z
  /\ sample fp 0 = {| time := 0; value := 0 |}
  /\ time (sample fp 3) = of_nat 3 * (10 / of_Z 5)
  /\ increasing (map time fp) = true
  /\ (time (sample fp 2) <? time (sample fp 5)) = true.
Proof.
  destruct (generatePath_shape SampleHost.math SampleHost.draws
              SampleHost.fiveSteps 0%nat) as (HL & HO & HT & HI);
    [reflexivity|].
  split; [exact HL|]. split; [exact HO|].
  split; [apply (HT 3%nat); cbn; lia|].
  destruct HI as [HI HP]; [vm_compute; discriminate|].
  assert (I : increasing
                (map time
                   (fst (generatePath SampleHost.math SampleHost.draws
                           SampleHost.fiveSteps 0%nat))) = true).
  { rewrite HI. vm_compute. reflexivity. }
  split; [exact I|]. apply (HP I 2%nat 5%nat). cbn. lia.
Defined.

(** C1, as stated, fails: with [steps = 2] and the smallest positive double
    as interval length (5e-324), the time step rounds to 0 and the three
    times are 0, 0, 0, whatever the host, the draws and the other
    parameters. *)
Lemma generatePath_times_collapse :
  (0 < 2)%Z
  /\ (0 <? 0x1p-1074) = true
  /\ 0x1p-1074 / of_Z 2 = 0
  /\ forall (M : MathLib) (u : nat -> float) (mu sigma : float) (c : nat),
       let p := {| drift := mu; diffusion := sigma; steps := 2;
                   intervalLength := 0x1p-1074 |} in
       let fp := fst (generatePath M u p c) in
       map time fp = [0; 0; 0] /\ increasing (map time fp) = false.
Proof.
  split; [lia|]. split; [reflexivity|]. split; [reflexivity|].
  intros M u mu sigma c. cbv zeta. rewrite generatePath_times.
  cbn [steps intervalLength]. vm_compute. split; reflexivity.
Qed.

(** With the values the form starts from, the times do increase. *)
Example default_times_increase :
  increasing
    (map time
       (fst (generatePath SampleHost.math SampleHost.draws
               (params initialState) 0%nat))) = true.
Proof. vm_compute. reflexivity. Qed.

(** Over the largest double in three steps the last time is infinite and
    the times increase; over an infinite interval in two steps two times
    are infinite. *)
Example times_up_to_infinity :
  map (fun j => of_nat j * (0x1.fffffffffffffp1023 / of_Z 3)) [1; 2; 3]%nat
  = [0x1.5555555555555p1022; 0x1.5555555555555p1023; infinity]
  /\ map (fun j => of_nat j * (infinity / of_Z 2)) [1; 2]%nat
     = [infinity; infinity].
Proof. vm_compute. split; reflexivity. Qed.

End TimeInstances.
